(** * The fuzzy-match transform of eole (src/eole/transforms/fuzzymatch.py)

    A shallow embedding of [FuzzyMatchConfig], [FuzzyMatcher] and
    [FuzzyMatchTransform], followed by the properties of the translation
    memory loader, of the quota-bounded batch augmenter and of the batch
    adapter.

    Conventions of the embedding.
    - A Python [str] is a [string]; every [ascii] stands for one code point
      below 256, so that [len] is [String.length].
    - A Python [float] is the rational number it denotes ([Q]).  The only
      float operation of the module, the product [len(batch) * corpus_ratio],
      is kept abstract ([float_mul]): whatever rounding it performs, the
      results below hold.  Comparisons of an [int] with a [float] are exact
      in Python and are exact here.
    - Exceptions are values of [exn]; a function that can raise returns a
      [result].
    - rapidfuzz is an external library: the similarity [fuzz_ratio] and the
      conversion of a score into a [uint8] matrix cell are parameters
      ([Scorer]).
    - [np.array_split] first stores the batch as a numpy array of strings of
      one fixed width, padded with NUL characters; an item read back from the
      array has lost its trailing NUL characters ([np_str], [np_array]).
      [_get_batch_matches] is the method on the items as the array holds
      them; [_get_batch_matches_of_list] is the call on a Python list of
      arbitrary strings.  The two agree on a batch none of whose items ends
      in NUL. *)

From Stdlib Require Import Ascii QArith Qround Lqa.
From stdpp Require Import base option list functions gmap strings.

Local Open Scope Z_scope.

(** ** Python runtime: exceptions and results *)

Inductive exn : Set :=
  | ValueError
  | IndexError
  | KeyError
  | AttributeError
  | AssertionError
  | OSError.

Inductive result (A : Type) : Type :=
  | Ok (a : A)
  | Raise (e : exn).
Global Arguments Ok {A} a.
Global Arguments Raise {A} e.

Global Instance result_ret : MRet result := @Ok.
Global Instance result_bind : MBind result := λ A B f m,
  match m with
  | Ok a => f a
  | Raise e => Raise e
  end.
Global Instance result_fmap : FMap result := λ A B f m,
  match m with
  | Ok a => Ok (f a)
  | Raise e => Raise e
  end.

(** [for x in xs: ...] where the body can raise and produces one value. *)
Fixpoint for_each {A B : Type} (f : A → result B) (xs : list A) : result (list B) :=
  match xs with
  | [] => Ok []
  | x :: xs' => y ← f x; ys ← for_each f xs'; Ok (y :: ys)
  end.

(** [l[k]] for a non-negative index. *)
Definition py_index {A : Type} (l : list A) (k : nat) : result A :=
  match l !! k with
  | Some x => Ok x
  | None => Raise IndexError
  end.

(** ** Python runtime: [str] *)

Definition len (s : string) : Z := Z.of_nat (String.length s).

(** [str.isspace] on one character (code points below 256). *)
Definition isspace (c : ascii) : bool :=
  let n := Ascii.N_of_ascii c in
  ((9 <=? n)%N && (n <=? 13)%N) || ((28 <=? n)%N && (n <=? 32)%N)
  || (n =? 133)%N || (n =? 160)%N.

Fixpoint lstrip (s : string) : string :=
  match s with
  | EmptyString => EmptyString
  | String c s' => if isspace c then lstrip s' else s
  end.

Fixpoint rstrip (s : string) : string :=
  match s with
  | EmptyString => EmptyString
  | String c s' =>
      match rstrip s' with
      | EmptyString => if isspace c then EmptyString else String c EmptyString
      | r => String c r
      end
  end.

(** [s.strip()] *)
Definition strip (s : string) : string := rstrip (lstrip s).

(** [sub in s] *)
Fixpoint contains (sub s : string) : bool :=
  String.prefix sub s ||
  match s with
  | EmptyString => false
  | String _ s' => contains sub s'
  end.

(** The fields of [s.split(sep)] for a non-empty [sep]: the text is scanned
    from the left, every occurrence of [sep] that does not overlap the
    previous one closes a field.  [skip] counts the characters of an
    occurrence that are still to be passed over. *)
Fixpoint split_go (sep s : string) (skip : nat) : list string :=
  match s with
  | EmptyString => [EmptyString]
  | String c s' =>
      match skip with
      | S k => split_go sep s' k
      | O =>
          if String.prefix sep s
          then EmptyString :: split_go sep s' (String.length sep - 1)
          else match split_go sep s' 0 with
               | field :: fields => String c field :: fields
               | [] => [String c EmptyString]
               end
      end
  end.

(** [s.split(sep)]; an empty separator is a [ValueError]. *)
Definition str_split (sep s : string) : result (list string) :=
  match sep with
  | EmptyString => Raise ValueError
  | _ => Ok (split_go sep s 0)
  end.

(** [sep.join(parts)] *)
Fixpoint str_join (sep : string) (parts : list string) : string :=
  match parts with
  | [] => EmptyString
  | [p] => p
  | p :: ps => p +:+ sep +:+ str_join sep ps
  end.

Definition TAB : string := String (Ascii.ascii_of_nat 9) EmptyString.
Definition NL : string := String (Ascii.ascii_of_nat 10) EmptyString.

(** ** numpy *)

Definition NUL : string := String (Ascii.ascii_of_nat 0) EmptyString.

Definition is_nul (c : ascii) : bool := Ascii.eqb c (Ascii.ascii_of_nat 0).

(** An item read back from a numpy array of strings ([numpy.str_]): the
    string that was put in, without its trailing NUL characters. *)
Fixpoint np_str (s : string) : string :=
  match s with
  | EmptyString => EmptyString
  | String c s' =>
      match np_str s' with
      | EmptyString => if is_nul c then EmptyString else String c EmptyString
      | r => String c r
      end
  end.

(** [list(np.asarray(batch))] for a list of strings. *)
Definition np_array (batch : list string) : list string := np_str <$> batch.

(** The last character of [s] is NUL. *)
Fixpoint ends_with_nul (s : string) : bool :=
  match s with
  | EmptyString => false
  | String c EmptyString => is_nul c
  | String _ s' => ends_with_nul s'
  end.

(** No character of [s] is NUL. *)
Fixpoint nul_free (s : string) : bool :=
  match s with
  | EmptyString => true
  | String c s' => negb (is_nul c) && nul_free s'
  end.

(** The sub-arrays cut by [np.array_split]: consecutive slices
    [ary[st:end]] whose lengths are the section sizes. *)
Fixpoint sub_arys {A : Type} (section_sizes : list nat) (ary : list A) : list (list A) :=
  match section_sizes with
  | [] => []
  | size :: sizes => take size ary :: sub_arys sizes (drop size ary)
  end.

(** [np.array_split(ary, Nsections)] on an array [ary], given by the items
    it holds: [extras] sections of [Neach_section + 1] items followed by
    sections of [Neach_section] items; no section at all is a [ValueError]. *)
Definition array_split {A : Type} (ary : list A) (Nsections : nat) : result (list (list A)) :=
  match Nsections with
  | O => Raise ValueError
  | _ =>
      let Neach_section := (length ary / Nsections)%nat in
      let extras := (length ary mod Nsections)%nat in
      let section_sizes :=
        replicate extras (S Neach_section)
        ++ replicate (Nsections - extras) Neach_section in
      Ok (sub_arys section_sizes ary)
  end.

(** A two-dimensional [uint8] array: its number of columns and its rows. *)
Record ndarray : Type := {
  ncols : nat;
  rows : list (list Z)
}.

(** [np.any(a, 1)]: one truth value per row, true when a cell is not zero. *)
Definition any_row (row : list Z) : bool := existsb (λ v, negb (v =? 0)) row.
Definition np_any (a : ndarray) : list bool := map any_row (rows a).

(** The position of the first largest cell after position [i], [best] at
    [besti] being the largest so far. *)
Fixpoint argmax_go (row : list Z) (i : nat) (best : Z) (besti : nat) : nat :=
  match row with
  | [] => besti
  | v :: row' =>
      if best <? v then argmax_go row' (S i) v i
      else argmax_go row' (S i) best besti
  end.

Definition argmax_row (row : list Z) : nat :=
  match row with
  | [] => O
  | v :: row' => argmax_go row' 1 v 0
  end.

(** [np.argmax(a, axis=1)]: the first position of the largest cell of each
    row; an axis of length zero is a [ValueError]. *)
Definition np_argmax (a : ndarray) : result (list nat) :=
  match ncols a with
  | O => Raise ValueError
  | _ => Ok (map argmax_row (rows a))
  end.

(** ** rapidfuzz and float arithmetic *)

(** The external scorer (rapidfuzz): [fuzz_ratio q c] is the similarity
    [fuzz.ratio] gives to a query and a choice, [to_uint8] the conversion of
    a kept score into a cell of a [uint8] matrix. *)
Class Scorer : Type := {
  fuzz_ratio : string → string → Q;
  to_uint8 : Q → Z
}.

(** Multiplication of floats; it keeps non-negative operands non-negative. *)
Class FloatArith : Type := {
  float_mul : Q → Q → Q;
  float_mul_nonneg : ∀ a b : Q, (0 <= a)%Q → (0 <= b)%Q → (0 <= float_mul a b)%Q
}.

Section Cdist.
Context `{Scorer}.

(** Modelled from the spec: the similarity scorer is an external
    capability; in its matrix a score below the cutoff is reported as 0.
    This is one cell of the matrix of [process.cdist]. *)
Definition cdist_cell (score_cutoff : Q) (query choice : string) : Z :=
  let score := fuzz_ratio query choice in
  if Qle_bool score_cutoff score then to_uint8 score else 0.

(** Modelled from the spec: the scorer returns a query by choice matrix.
    [process.cdist(queries, choices, scorer=fuzz.ratio, dtype=np.uint8,
    score_cutoff=score_cutoff)]: one row per query, one column per choice. *)
Definition cdist (queries choices : list string) (score_cutoff : Q) : ndarray :=
  {| ncols := length choices;
     rows := map (λ query, map (cdist_cell score_cutoff query) choices) queries |}.
End Cdist.

(** ** FuzzyMatcher *)

Record FuzzyMatcher : Type := {
  threshold : Q;
  corpus_ratio : Q;
  tm_delimiter : string;
  fuzzy_token : string;
  tm_unit_min_length : Z;
  tm_unit_max_length : Z;
  internal_tm : list string * list string
}.

(** The body of [for pair in pairs] in [_create_tm]: a pair that does not
    unpack into [source, target] is a [ValueError]. *)
Fixpoint _create_tm_loop (delimiter : string) (min_length max_length : Z)
    (pairs : list string) (src_segments tgt_segments : list string)
  : result (list string * list string) :=
  match pairs with
  | [] => Ok (src_segments, tgt_segments)
  | pair_ :: pairs' =>
      fields ← str_split delimiter pair_;
      match fields with
      | [source; target] =>
          if (len source <? min_length) || (max_length <? len source)
          then _create_tm_loop delimiter min_length max_length pairs'
                 src_segments tgt_segments
          else _create_tm_loop delimiter min_length max_length pairs'
                 (src_segments ++ [strip source]) (tgt_segments ++ [strip target])
      | _ => Raise ValueError
      end
  end.

(** [_create_tm]: [tm_file] is what [open(tm_path).readlines()] gives, [None]
    when the file cannot be opened. *)
Definition _create_tm (delimiter : string) (min_length max_length : Z)
    (tm_file : option (list string)) : result (list string * list string) :=
  match tm_file with
  | None => Raise OSError
  | Some pairs => _create_tm_loop delimiter min_length max_length pairs [] []
  end.

(** [FuzzyMatcher.__init__] *)
Definition FuzzyMatcher_init (tm_file : option (list string)) (corpus_ratio : Q)
    (threshold : Q) (tm_delimiter fuzzy_token : string)
    (tm_unit_min_lentgh tm_unit_max_length : Z) : result FuzzyMatcher :=
  tm ← _create_tm tm_delimiter tm_unit_min_lentgh tm_unit_max_length tm_file;
  Ok {| threshold := threshold;
        corpus_ratio := corpus_ratio;
        tm_delimiter := tm_delimiter;
        fuzzy_token := fuzzy_token;
        tm_unit_min_length := tm_unit_min_lentgh;
        tm_unit_max_length := tm_unit_max_length;
        internal_tm := tm |}.

Definition chunk_size : nat := Z.to_nat 10000.

Section BatchMatches.
Context `{Scorer} `{FloatArith}.

(** [len(batch) * self.corpus_ratio] *)
Definition quota (self : FuzzyMatcher) {A : Type} (batch : list A) : Q :=
  float_mul (inject_Z (Z.of_nat (length batch))) (corpus_ratio self).

(** [fuzzy_count >= len(batch) * self.corpus_ratio] *)
Definition quota_reached (cap : Q) (fuzzy_count : nat) : bool :=
  Qle_bool cap (inject_Z (Z.of_nat fuzzy_count)).

(** What the inner loop reads at one [idx]: [s], [matches[idx]],
    [results[idx]] and [argmax[idx]]. *)
Definition scored : Type := string * bool * list Z * nat.

Definition enumerate (plist : list string) (matches : list bool)
    (results : ndarray) (argmax : list nat) : list scored :=
  zip (zip (zip plist matches) (rows results)) argmax.

(** [for idx, s in enumerate(plist)]: the items written back into [plist]
    and the counter.  At [break] the remaining items stay as they are. *)
Fixpoint for_items (self : FuzzyMatcher) (cap : Q) (items : list scored)
    (fuzzy_count : nat) : result (list string * nat) :=
  match items with
  | [] => Ok ([], fuzzy_count)
  | (s, matched, row, best) :: items' =>
      if contains (fuzzy_token self) s
      then '(plist, n) ← for_items self cap items' fuzzy_count; Ok (s :: plist, n)
      else
        fuzzy ← (if matched then score ← py_index row best; Ok (score <? 100)
                 else Ok false);
        if fuzzy : bool
        then
          if quota_reached cap fuzzy_count
          then Ok (s :: map (λ it : scored, it.1.1.1) items', fuzzy_count)
          else
            target ← py_index (internal_tm self).2 best;
            '(plist, n) ← for_items self cap items' (S fuzzy_count);
            Ok ((s +:+ fuzzy_token self +:+ target) :: plist, n)
        else '(plist, n) ← for_items self cap items' fuzzy_count; Ok (s :: plist, n)
  end.

(** The body of [for mini_batch in mini_batches]. *)
Definition for_mini_batch (self : FuzzyMatcher) (cap : Q) (plist : list string)
    (fuzzy_count : nat) : result (list string * nat) :=
  if quota_reached cap fuzzy_count then Ok (plist, fuzzy_count)
  else
    let results := cdist plist (internal_tm self).1 (threshold self) in
    let matches := np_any results in
    argmax ← np_argmax results;
    for_items self cap (enumerate plist matches results argmax) fuzzy_count.

Fixpoint for_mini_batches (self : FuzzyMatcher) (cap : Q)
    (mini_batches : list (list string)) (augmented : list string)
    (fuzzy_count : nat) : result (list string * nat) :=
  match mini_batches with
  | [] => Ok (augmented, fuzzy_count)
  | mini_batch :: mini_batches' =>
      '(plist, n) ← for_mini_batch self cap mini_batch fuzzy_count;
      for_mini_batches self cap mini_batches' (augmented ++ plist) n
  end.

(** [np.array_split(batch, ...)] of [_get_batch_matches], for the batch as
    the array holds it. *)
Definition mini_batches_of (batch : list string) : result (list (list string)) :=
  array_split batch
    (if (chunk_size <? length batch)%nat then (length batch / chunk_size)%nat else 1%nat).

(** [_get_batch_matches] together with the final [fuzzy_count], the number
    the function logs; [batch] holds the items as they are read back from
    the array. *)
Definition _get_batch_matches_count (self : FuzzyMatcher) (batch : list string)
  : result (list string * nat) :=
  mini_batches ← mini_batches_of batch;
  for_mini_batches self (quota self batch) mini_batches [] 0%nat.

Definition _get_batch_matches (self : FuzzyMatcher) (batch : list string)
  : result (list string) :=
  fst <$> _get_batch_matches_count self batch.

(** [self._get_batch_matches(batch)] for a Python list [batch] of arbitrary
    strings: [np.array_split] stores the list as an array before it cuts
    it, the chunks and the items of [plist] are read from that array, and
    [len(batch)] is the length of the list. *)
Definition _get_batch_matches_of_list_count (self : FuzzyMatcher) (batch : list string)
    : result (list string * nat) :=
  _get_batch_matches_count self (np_array batch).

Definition _get_batch_matches_of_list (self : FuzzyMatcher) (batch : list string)
    : result (list string) :=
  fst <$> _get_batch_matches_of_list_count self batch.
End BatchMatches.

(** ** The selection algorithm on the whole batch at once

    The reference the chunked augmenter is compared with: the steps of one
    chunk (quota test at entry, one scorer call, the selection rule item by
    item) applied to the entire batch taken as a single chunk. *)
Section WholeBatch.
Context `{Scorer} `{FloatArith}.

Definition whole_batch_count (self : FuzzyMatcher) (batch : list string)
  : result (list string * nat) :=
  for_mini_batch self (quota self batch) batch 0%nat.

Definition whole_batch (self : FuzzyMatcher) (batch : list string)
  : result (list string) :=
  fst <$> whole_batch_count self batch.
End WholeBatch.

(** The positions of a batch whose item was rewritten by the augmenter. *)
Definition augmented_positions (batch augmented : list string) : list nat :=
  filter (λ idx, batch !! idx ≠ augmented !! idx) (seq 0 (length batch)).

(** ** FuzzyMatchConfig *)

Inductive pyval : Type :=
  | PyNone
  | PyInt (z : Z)
  | PyFloat (q : Q)
  | PyStr (s : string).

(** The body of [class FuzzyMatchConfig]: its annotated assignments in source
    order, each name with the default of its [Field] (0.1 stands for the
    float written [0.1]; the default token is kept as its UTF-8 bytes). *)
Definition FuzzyMatchConfig_body : list (string * pyval) :=
  [ ("tm_path", PyNone);
    ("fuzzy_corpus_ratio", PyFloat (1 # 10));
    ("fuzzy_threshold", PyInt 70);
    ("tm_delimiter", PyStr TAB);
    ("fuzzy_token", PyStr "｟fuzzy｠");
    ("fuzzymatch_min_length", PyInt 4);
    ("fuzzymatch_min_length", PyInt 70) ].

(** Executing a class body fills the class namespace one assignment after
    the other: assigning to a name again replaces what it held. *)
Definition class_namespace (body : list (string * pyval)) : gmap string pyval :=
  foldl (λ namespace assignment, <[assignment.1 := assignment.2]> namespace) ∅ body.

(** The attributes of an instance of the class made from the [given]
    options: every declared field holds the given value, or its default; a
    name that is not a declared field is no attribute.  The validation of
    the options is done by the base class, which is not part of these
    sources, and is not modelled. *)
Definition FuzzyMatchConfig (given : gmap string pyval) : gmap string pyval :=
  map_imap (λ name default, Some (from_option id default (given !! name)))
    (class_namespace FuzzyMatchConfig_body).

(** [obj.name] *)
Definition getattr (obj : gmap string pyval) (name : string) : result pyval :=
  match obj !! name with
  | Some v => Ok v
  | None => Raise AttributeError
  end.

(** ** FuzzyMatchTransform *)

(** The attributes [_parse_config] sets on the transform, as read from the
    configuration. *)
Module Attributes.
Record t : Type := {
  tm_path : pyval;
  fuzzy_corpus_ratio : pyval;
  fuzzy_threshold : pyval;
  tm_delimiter : pyval;
  fuzzy_token : pyval;
  fuzzymatch_min_length : pyval;
  fuzzymatch_max_length : pyval
}.
End Attributes.

Module FuzzyMatchTransform.

Definition _parse_config (config : gmap string pyval) : result Attributes.t :=
  tm_path ← getattr config "tm_path";
  fuzzy_corpus_ratio ← getattr config "fuzzy_corpus_ratio";
  fuzzy_threshold ← getattr config "fuzzy_threshold";
  tm_delimiter ← getattr config "tm_delimiter";
  fuzzy_token ← getattr config "fuzzy_token";
  fuzzymatch_min_length ← getattr config "fuzzymatch_min_length";
  fuzzymatch_max_length ← getattr config "fuzzymatch_max_length";
  Ok {| Attributes.tm_path := tm_path;
        Attributes.fuzzy_corpus_ratio := fuzzy_corpus_ratio;
        Attributes.fuzzy_threshold := fuzzy_threshold;
        Attributes.tm_delimiter := tm_delimiter;
        Attributes.fuzzy_token := fuzzy_token;
        Attributes.fuzzymatch_min_length := fuzzymatch_min_length;
        Attributes.fuzzymatch_max_length := fuzzymatch_max_length |}.

(** The transform once warmed up: the two length bounds and the matcher. *)
Record t : Type := {
  fuzzymatch_min_length : Z;
  fuzzymatch_max_length : Z;
  matcher : FuzzyMatcher
}.

(** An example is a [dict] from field names to token lists; examples are
    objects, the batch holds references to them and [store] maps a
    reference to the present contents of the object. *)
Abbreviation example := (gmap string (list string)).
Abbreviation ref := nat.
Abbreviation store := (nat → gmap string (list string)).

(** [ex["src"]] *)
Definition getitem_src (ex : example) : result (list string) :=
  match ex !! "src" with
  | Some tokens => Ok tokens
  | None => Raise KeyError
  end.

(** The body of the first loop of [batch_apply]: the joined source, or the
    empty string for an example outside the length bounds. *)
Definition src_segment (self : t) (ex : example) : result string :=
  tokens ← getitem_src ex;
  Ok (if (fuzzymatch_min_length self <? len (str_join " " tokens))
         && (len (str_join " " tokens) <? fuzzymatch_max_length self)
      then str_join " " tokens
      else EmptyString).

Section BatchApply.
Context `{Scorer} `{FloatArith} {X Y : Type}.

Definition src_segments (self : t) (batch : list (ref * X * Y)) (σ : store)
  : result (list string) :=
  for_each (λ item : ref * X * Y, src_segment self (σ item.1.1)) batch.

(** The second loop of [batch_apply]: [example["src"]] is assigned when
    [fuzzied_src[idx]] is not the empty string. *)
Fixpoint write_back (batch : list (ref * X * Y)) (fuzzied_src : list string)
    (σ : store) : result unit * store :=
  match batch with
  | [] => (Ok (), σ)
  | (example, _, _) :: batch' =>
      match fuzzied_src with
      | [] => (Raise IndexError, σ)
      | fuzzied :: fuzzied_src' =>
          if String.eqb fuzzied EmptyString
          then write_back batch' fuzzied_src' σ
          else
            match str_split " " fuzzied with
            | Ok tokens =>
                write_back batch' fuzzied_src'
                  (<[example := <["src" := tokens]> (σ example)]> σ)
            | Raise e => (Raise e, σ)
            end
      end
  end.

(** [batch_apply]: the value returned (the batch itself) or the
    exception raised, and the store it leaves. *)
Definition batch_apply (self : t) (batch : list (ref * X * Y)) (σ : store)
  : result (list (ref * X * Y)) * store :=
  match src_segments self batch σ with
  | Raise e => (Raise e, σ)
  | Ok segments =>
      match _get_batch_matches (matcher self) segments with
      | Raise e => (Raise e, σ)
      | Ok fuzzied_src =>
          if (length segments =? length fuzzied_src)%nat
          then
            match write_back batch fuzzied_src σ with
            | (Ok _, σ') => (Ok batch, σ')
            | (Raise e, σ') => (Raise e, σ')
            end
          else (Raise AssertionError, σ)
      end
  end.
End BatchApply.
End FuzzyMatchTransform.

(** ** Instances used to run the code on concrete inputs *)

(** Length of a longest common subsequence. *)
Fixpoint lcs (s t : string) : nat :=
  match s with
  | EmptyString => O
  | String a s' =>
      (fix lcs_row (t : string) : nat :=
         match t with
         | EmptyString => O
         | String b t' =>
             if Ascii.eqb a b then S (lcs s' t')
             else Nat.max (lcs s' t) (lcs_row t')
         end) t
  end.

(** The normalized Indel similarity on the scale 0..100, as [fuzz.ratio]
    documents it: 100 for two empty strings, and otherwise
    [200 * lcs / (len(s) + len(t))]. *)
Definition indel_ratio (s t : string) : Q :=
  match (String.length s + String.length t)%nat with
  | O => 100 # 1
  | S n => (200 * Z.of_nat (lcs s t)) # Pos.of_succ_nat n
  end.

(** Scores are rounded to the nearest integer when stored. *)
Definition indel_scorer : Scorer :=
  {| fuzz_ratio := indel_ratio; to_uint8 := λ score, Qfloor (score + (1 # 2)) |}.

(** Exact multiplication, which binary floating point agrees with whenever
    the exact product is a float. *)
Definition exact_float : FloatArith :=
  {| float_mul := Qmult; float_mul_nonneg := Qmult_le_0_compat |}.

(** ** Notions used to state the properties *)

(** Blank strings, and strings with a blank at one end. *)
Fixpoint all_space (s : string) : bool :=
  match s with
  | EmptyString => true
  | String c s' => isspace c && all_space s'
  end.

Definition starts_with_space (s : string) : bool :=
  match s with
  | EmptyString => false
  | String c _ => isspace c
  end.

Fixpoint ends_with_space (s : string) : bool :=
  match s with
  | EmptyString => false
  | String c EmptyString => isspace c
  | String _ s' => ends_with_space s'
  end.

(** A line of the TM file that unpacks into a source and a target. *)
Definition two_fields (delimiter line : string) : Prop :=
  ∃ source target, str_split delimiter line = Ok [source; target].

(** The filter of [_create_tm]: the raw length of the source field lies
    within the two bounds. *)
Definition within_bounds (min_length max_length : Z) (fields : string * string) : Prop :=
  min_length ≤ len fields.1 ≤ max_length.

Global Instance within_bounds_dec min_length max_length fields :
  Decision (within_bounds min_length max_length fields).
Proof. unfold within_bounds. apply _. Defined.

Section Scores.
Context `{Scorer}.

(** The row of the score matrix of an item: it does not depend on the
    chunk the item is scored in. *)
Definition row_of (self : FuzzyMatcher) (s : string) : list Z :=
  map (cdist_cell (threshold self) s) (internal_tm self).1.

Definition score_item (self : FuzzyMatcher) (s : string) : scored :=
  (s, any_row (row_of self s), row_of self s, argmax_row (row_of self s)).

(** The scorer gives the empty query either no score or the score of an
    exact match, against every choice and under every cutoff. *)
Definition empty_query_trivial : Prop :=
  ∀ (score_cutoff : Q) (choice : string),
    cdist_cell score_cutoff EmptyString choice = 0
    ∨ 100 ≤ cdist_cell score_cutoff EmptyString choice.
End Scores.

(** [argmax[idx]] is a column of [results[idx]] whenever the row matched. *)
Definition scored_wf (it : scored) : Prop :=
  it.1.1.2 = true → (it.2 < length it.1.2)%nat.

(** [k] is the first position of the largest cell of [row]. *)
Definition first_max (row : list Z) (k : nat) : Prop :=
  ∃ best, row !! k = Some best
    ∧ (∀ j v, row !! j = Some v → v ≤ best)
    ∧ (∀ j v, (j < k)%nat → row !! j = Some v → v < best).

(** What the inner loop can write at the place of one item: the item
    itself, or, for an item without the token whose row matched below 100,
    the item followed by the token and the target at [argmax[idx]]. *)
Definition item_outcome (self : FuzzyMatcher) (it : scored) (o : string) : Prop :=
  o = it.1.1.1
  ∨ (contains (fuzzy_token self) it.1.1.1 = false
     ∧ it.1.1.2 = true
     ∧ (∃ score, it.1.2 !! it.2 = Some score ∧ score < 100)
     ∧ ∃ target, (internal_tm self).2 !! it.2 = Some target
         ∧ o = it.1.1.1 +:+ fuzzy_token self +:+ target).

(** ** Concrete inputs *)

(** A TM file of three lines: a pair within the bounds, a pair whose raw
    source has four characters, two of them blanks, and a pair whose source
    is too short. *)
Definition tm_lines : list string :=
  [ "hello worlX" +:+ TAB +:+ "bonjour mondeX" +:+ NL;
    " ab " +:+ TAB +:+ " cd " +:+ NL;
    "abc" +:+ TAB +:+ "def" +:+ NL ].

(** A line in which the delimiter occurs twice. *)
Definition tm_line_twice : string :=
  "hello world" +:+ TAB +:+ "bonjour" +:+ TAB +:+ "monde" +:+ NL.

(** A matcher with the default threshold, delimiter and bounds, the token
    ["[F]"], a given ratio and a given TM. *)
Definition matcher_of (ratio : Q) (tm : list string * list string) : FuzzyMatcher :=
  {| threshold := 70;
     corpus_ratio := ratio;
     tm_delimiter := TAB;
     fuzzy_token := "[F]";
     tm_unit_min_length := 4;
     tm_unit_max_length := 70;
     internal_tm := tm |}.

(** A TM of one pair that is close to ["hello world"] without being it. *)
Definition hello_tm : list string * list string :=
  (["hello worlX"], ["bonjour mondeX"]).

(** A TM file whose only line has a source shorter than [min_length]. *)
Definition short_tm_lines : list string := [ "ab" +:+ TAB +:+ "cd" +:+ NL ].

(** A batch of [chunk_size + 1] items. *)
Definition long_batch : list string := replicate (S chunk_size) "hello world".

(** A warmed-up transform with the default bounds, and a batch of two
    examples: the source of the first one is too short for the bounds, the
    second one is close to the TM. *)
Definition demo_transform : FuzzyMatchTransform.t :=
  {| FuzzyMatchTransform.fuzzymatch_min_length := 4;
     FuzzyMatchTransform.fuzzymatch_max_length := 70;
     FuzzyMatchTransform.matcher := matcher_of 1 hello_tm |}.

Definition demo_store : nat → gmap string (list string) :=
  λ ref,
    match ref with
    | O => {[ "src" := ["hi"]; "tgt" := ["salut"] ]}
    | _ => {[ "src" := ["hello"; "world"]; "tgt" := ["bonjour"; "monde"] ]}
    end.

Definition demo_batch : list (nat * unit * unit) := [ (0%nat, (), ()); (1%nat, (), ()) ].

(** ** The rest of [FuzzyMatchTransform] *)

(** [apply(self, example, ...)] *)
Definition apply {Example : Type} (example : Example) : Example := example.

(** ** eole.utils.logging *)

Module Logging.

Inductive handler_kind : Type :=
  | StreamHandler
  | FileHandler (filename : string)
  | RotatingFileHandler (filename : string) (maxBytes backupCount : Z).

(** A handler: what it writes to, its level and the format of its
    formatter. *)
Record handler : Type := {
  kind : handler_kind;
  hlevel : Z;
  formatter : option string
}.

(** The logger named ["eole"]: its level and its handlers. *)
Record logger : Type := {
  level : Z;
  handlers : list handler
}.

Definition NOTSET : Z := 0.
Definition INFO : Z := 20.

Definition log_format : string := "[%(asctime)s %(levelname)s] %(message)s".

(** [log_file and log_file != ""] *)
Definition wants_file (log_file : option string) : option string :=
  match log_file with
  | Some path => if String.eqb path EmptyString then None else Some path
  | None => None
  end.

(** [init_logger(log_file, log_file_level, rotate, log_level)] run on the
    logger [eole]: the value returned, or the exception of a log file that
    cannot be opened ([can_open] tells which files can), and the logger
    left behind. *)
Definition init_logger (can_open : string → bool) (log_file : option string)
    (log_file_level : Z) (rotate : bool) (log_level : Z) (eole : logger)
  : result unit * logger :=
  let console_handler :=
    {| kind := StreamHandler; hlevel := NOTSET; formatter := Some log_format |} in
  let eole := {| level := log_level; handlers := [console_handler] |} in
  match wants_file log_file with
  | Some path =>
      if can_open path
      then
        let file_handler :=
          {| kind := if rotate then RotatingFileHandler path 1000000 10
                     else FileHandler path;
             hlevel := log_file_level;
             formatter := Some log_format |} in
        (Ok (), {| level := level eole; handlers := handlers eole ++ [file_handler] |})
      else (Raise OSError, eole)
  | None => (Ok (), eole)
  end.

End Logging.

(** ** More notions used to state the properties *)

Section Candidates.
Context `{Scorer}.

(** An item of the loop that passes the selection rule: it lacks the token,
    its row matched and its best score is below 100. *)
Definition scored_candidate (self : FuzzyMatcher) (it : scored) : bool :=
  negb (contains (fuzzy_token self) it.1.1.1)
  && it.1.1.2
  && match it.1.2 !! it.2 with
     | Some score => score <? 100
     | None => false
     end.

(** The same for an item of the batch, scored against the TM. *)
Definition fuzzy_candidate (self : FuzzyMatcher) (s : string) : bool :=
  scored_candidate self (score_item self s).
End Candidates.


(** More concrete inputs. *)
Definition tm_lines_more : list string :=
  [ "good morning" +:+ TAB +:+ "bonjour" +:+ NL ].

Definition blank_line_file : list string :=
  [ "hello worlX" +:+ TAB +:+ "bonjour mondeX" +:+ NL; NL ].

Definition logger_with_old_handlers : Logging.logger :=
  {| Logging.level := 10;
     Logging.handlers :=
       [ {| Logging.kind := Logging.FileHandler "old.log";
            Logging.hlevel := 0;
            Logging.formatter := None |} ] |}.


Definition no_src_store : nat → gmap string (list string) :=
  λ ref, {[ "tgt" := ["x"] ]}.

(** Calls of [init_logger] made one after the other on the same logger,
    each with its [log_file], [log_file_level], [rotate] and [log_level];
    a call that raises leaves the logger to the next one. *)
Fixpoint init_logger_calls (can_open : string → bool)
    (calls : list (option string * Z * bool * Z)) (eole : Logging.logger)
  : Logging.logger :=
  match calls with
  | [] => eole
  | (log_file, log_file_level, rotate, log_level) :: calls' =>
      init_logger_calls can_open calls'
        (Logging.init_logger can_open log_file log_file_level rotate log_level eole).2
  end.

Definition console_handler : Logging.handler :=
  {| Logging.kind := Logging.StreamHandler;
     Logging.hlevel := Logging.NOTSET;
     Logging.formatter := Some Logging.log_format |}.

(** * Properties *)

(** ** Strings *)

Lemma string_app_nil_l (s : string) : EmptyString +:+ s = s.
Proof. reflexivity. Qed.

Lemma string_app_cons (c : ascii) (a b : string) :
  String c a +:+ b = String c (a +:+ b).
Proof. reflexivity. Qed.

Lemma string_app_nil_r (s : string) : s +:+ EmptyString = s.
Proof.
  induction s as [|c s IH]; [done |]. by rewrite string_app_cons, IH.
Qed.

Lemma string_app_assoc (a b c : string) : (a +:+ b) +:+ c = a +:+ b +:+ c.
Proof.
  induction a as [|x a IH]; [done |]. by rewrite !string_app_cons, IH.
Qed.

Lemma string_app_length (a b : string) :
  String.length (a +:+ b) = (String.length a + String.length b)%nat.
Proof.
  induction a as [|x a IH]; [done |]. rewrite string_app_cons. simpl. by rewrite IH.
Qed.

Lemma prefix_app (a b : string) : String.prefix a (a +:+ b) = true.
Proof.
  induction a as [|x a IH]; [by destruct b |].
  rewrite string_app_cons. simpl.
  destruct (ascii_dec x x); [done | congruence].
Qed.

Lemma prefix_nil (s : string) : String.prefix EmptyString s = true.
Proof. by destruct s. Qed.

Lemma contains_nil (s : string) : contains EmptyString s = true.
Proof. destruct s; simpl; done. Qed.

(** An item that lacks the token differs from its augmented form. *)
Lemma augmented_ne (token s target : string) :
  contains token s = false → s +:+ token +:+ target ≠ s.
Proof.
  intros Hc Heq. destruct token as [|c token].
  - by rewrite contains_nil in Hc.
  - apply (f_equal String.length) in Heq.
    rewrite !string_app_length in Heq. simpl in Heq. lia.
Qed.

(** ** [str.strip] *)

Lemma lstrip_spec (s : string) :
  ∃ l, s = l +:+ lstrip s ∧ all_space l = true ∧ starts_with_space (lstrip s) = false.
Proof.
  induction s as [|c s (l & Hs & Hl & Hstart)]; [by exists EmptyString |].
  simpl. destruct (isspace c) eqn:Hc.
  - exists (String c l). rewrite string_app_cons, <- Hs. simpl. by rewrite Hc, Hl.
  - exists EmptyString. by rewrite string_app_nil_l.
Qed.

Lemma rstrip_spec (s : string) :
  ∃ r, s = rstrip s +:+ r ∧ all_space r = true ∧ ends_with_space (rstrip s) = false.
Proof.
  induction s as [|c s (r & Hs & Hr & Hend)]; [by exists EmptyString |].
  simpl. destruct (rstrip s) as [|d t] eqn:Hstrip.
  - rewrite string_app_nil_l in Hs. subst r.
    destruct (isspace c) eqn:Hc.
    + exists (String c s). rewrite string_app_nil_l. simpl. by rewrite Hc, Hr.
    + exists s. by rewrite string_app_cons, string_app_nil_l.
  - exists r. by rewrite string_app_cons, <- Hs.
Qed.

Lemma rstrip_start (s : string) :
  starts_with_space s = false → starts_with_space (rstrip s) = false.
Proof.
  destruct s as [|c s]; [done |]. simpl. intros Hc.
  destruct (rstrip s); [by rewrite Hc |]. done.
Qed.

(** [strip] removes blanks, and nothing else, from both ends, and leaves
    no blank at either end. *)
Lemma strip_spec (s : string) :
  ∃ l r, s = l +:+ strip s +:+ r
    ∧ all_space l = true ∧ all_space r = true
    ∧ starts_with_space (strip s) = false
    ∧ ends_with_space (strip s) = false.
Proof.
  unfold strip.
  destruct (lstrip_spec s) as (l & Hl & Hlspace & Hstart).
  destruct (rstrip_spec (lstrip s)) as (r & Hr & Hrspace & Hend).
  exists l, r. split; [by rewrite <- Hr |].
  split; [done |]. split; [done |]. split; [by apply rstrip_start | done].
Qed.

(** ** [str.split] *)

Lemma split_go_nonempty (sep s : string) (skip : nat) : split_go sep s skip ≠ [].
Proof.
  revert skip. induction s as [|c s IH]; intros skip; cbn [split_go]; [done |].
  destruct skip; [| apply IH].
  destruct (String.prefix sep (String c s)); [done |].
  destruct (split_go sep s 0); done.
Qed.

Lemma split_go_length_pos (sep s : string) (skip : nat) :
  (1 ≤ length (split_go sep s skip))%nat.
Proof.
  pose proof (split_go_nonempty sep s skip).
  destruct (split_go sep s skip); simpl; [done | lia].
Qed.

(** One occurrence of the separator beyond the skipped characters closes a
    field. *)
Lemma split_go_once (sep u v : string) (skip : nat) :
  sep ≠ EmptyString →
  (skip ≤ String.length u)%nat →
  (2 ≤ length (split_go sep (u +:+ sep +:+ v) skip))%nat.
Proof.
  intros Hsep. revert skip. induction u as [|c u IH]; intros skip Hskip.
  - simpl in Hskip. assert (skip = O) as -> by lia.
    rewrite string_app_nil_l.
    destruct sep as [|d sep]; [done |].
    rewrite string_app_cons.
    cbn [split_go]. rewrite <- string_app_cons, prefix_app.
    pose proof (split_go_length_pos (String d sep) (sep +:+ v)
                  (String.length (String d sep) - 1)).
    simpl in *. lia.
  - rewrite string_app_cons. cbn [split_go]. destruct skip as [|k].
    + destruct (String.prefix sep (String c (u +:+ sep +:+ v))).
      * pose proof (split_go_length_pos sep (u +:+ sep +:+ v) (String.length sep - 1)).
        simpl. lia.
      * specialize (IH O ltac:(lia)).
        destruct (split_go sep (u +:+ sep +:+ v) 0); simpl in *; lia.
    + apply IH. simpl in Hskip. lia.
Qed.

(** Two occurrences that do not overlap close two fields. *)
Lemma split_go_twice (sep u v w : string) (skip : nat) :
  sep ≠ EmptyString →
  (skip ≤ String.length u)%nat →
  (3 ≤ length (split_go sep (u +:+ sep +:+ v +:+ sep +:+ w) skip))%nat.
Proof.
  intros Hsep. revert skip. induction u as [|c u IH]; intros skip Hskip.
  - simpl in Hskip. assert (skip = O) as -> by lia.
    rewrite string_app_nil_l.
    destruct sep as [|d sep]; [done |].
    rewrite string_app_cons.
    cbn [split_go]. rewrite <- string_app_cons, prefix_app.
    rewrite <- string_app_assoc.
    pose proof (split_go_once (String d sep) (sep +:+ v) w
                  (String.length (String d sep) - 1) Hsep) as Hone.
    rewrite string_app_length in Hone. simpl in Hone.
    specialize (Hone ltac:(lia)). simpl in *. lia.
  - rewrite string_app_cons. cbn [split_go]. destruct skip as [|k].
    + destruct (String.prefix sep (String c (u +:+ sep +:+ v +:+ sep +:+ w))).
      * pose proof (split_go_once sep (u +:+ sep +:+ v) w
                      (String.length sep - 1) Hsep) as Hone.
        rewrite !string_app_length in Hone.
        specialize (Hone ltac:(lia)).
        rewrite !string_app_assoc in Hone. simpl. lia.
      * specialize (IH O ltac:(lia)).
        destruct (split_go sep (u +:+ sep +:+ v +:+ sep +:+ w) 0); simpl in *; lia.
    + apply IH. simpl in Hskip. lia.
Qed.

Lemma prefix_inv (a s : string) :
  String.prefix a s = true → ∃ rest, s = a +:+ rest.
Proof.
  revert s. induction a as [|x a IH]; intros s Hp.
  - by exists s.
  - destruct s as [|y s]; simpl in Hp; [done |].
    destruct (ascii_dec x y) as [->|]; [| done].
    destruct (IH s Hp) as [rest ->]. by exists rest.
Qed.

(** The characters of an occurrence that are still to be skipped do not
    contribute to the fields. *)
Lemma split_go_skip (sep u s : string) :
  split_go sep (u +:+ s) (String.length u) = split_go sep s 0.
Proof.
  induction u as [|c u IH]; [done |].
  rewrite string_app_cons. simpl. apply IH.
Qed.

Lemma str_join_cons (sep p : string) (ps : list string) :
  ps ≠ [] → str_join sep (p :: ps) = p +:+ sep +:+ str_join sep ps.
Proof. by destruct ps. Qed.

(** Joining the fields with the separator gives the text back. *)
Lemma split_go_join (sep s : string) :
  sep ≠ EmptyString → str_join sep (split_go sep s 0) = s.
Proof.
  intros Hsep.
  remember (String.length s) as n eqn:Hn.
  revert s Hn. induction (lt_wf n) as [n _ IH]. intros s ->.
  destruct s as [|c s]; [done |].
  cbn [split_go].
  destruct (String.prefix sep (String c s)) eqn:Hp.
  - destruct (prefix_inv _ _ Hp) as [rest Hrest].
    destruct sep as [|d sep]; [done |].
    rewrite string_app_cons in Hrest. injection Hrest as -> ->.
    replace (String.length (String d sep) - 1)%nat with (String.length sep)
      by (simpl; lia).
    rewrite split_go_skip.
    rewrite str_join_cons by apply split_go_nonempty.
    rewrite (IH (String.length rest)); [| | done].
    + by rewrite string_app_nil_l, string_app_cons.
    + simpl. rewrite string_app_length. lia.
  - pose proof (split_go_nonempty sep s 0) as Hne.
    specialize (IH (String.length s) ltac:(simpl; lia) s eq_refl).
    destruct (split_go sep s 0) as [|field fields]; [done |].
    destruct fields as [|f fields]; simpl in *; [by subst |].
    rewrite <- IH. by rewrite string_app_cons.
Qed.

Lemma two_fields_join (delimiter line source target : string) :
  str_split delimiter line = Ok [source; target] →
  line = source +:+ delimiter +:+ target.
Proof.
  unfold str_split. intros Hs.
  assert (delimiter ≠ EmptyString) as Hd by (by destruct delimiter).
  assert (split_go delimiter line 0 = [source; target]) as Hgo
    by (destruct delimiter; congruence).
  rewrite <- (split_go_join delimiter line Hd). by rewrite Hgo.
Qed.

(** A line in which the delimiter occurs twice does not unpack. *)
Lemma two_fields_twice (delimiter a b c : string) :
  ¬ two_fields delimiter (a +:+ delimiter +:+ b +:+ delimiter +:+ c).
Proof.
  intros (source & target & Hs). unfold str_split in Hs.
  assert (delimiter ≠ EmptyString) as Hd by (by destruct delimiter).
  pose proof (split_go_twice delimiter a b c 0 Hd ltac:(lia)) as H3.
  destruct delimiter; [done |]. injection Hs as Hs.
  rewrite Hs in H3. simpl in H3. lia.
Qed.

(** ** Loading the translation memory *)

Lemma str_split_error (sep s : string) (e : exn) :
  str_split sep s = Raise e → e = ValueError.
Proof. unfold str_split. destruct sep; congruence. Qed.

(** Lines that all unpack are loaded: the lines within the bounds are kept
    in order, both fields stripped. *)
Lemma create_tm_loop_ok delimiter min_length max_length pairs fields src tgt :
  Forall2 (λ line f, str_split delimiter line = Ok [f.1; f.2]) pairs fields →
  _create_tm_loop delimiter min_length max_length pairs src tgt
  = Ok (src ++ (strip ∘ fst <$> filter (within_bounds min_length max_length) fields),
        tgt ++ (strip ∘ snd <$> filter (within_bounds min_length max_length) fields)).
Proof.
  intros HF. revert src tgt.
  induction HF as [|line [source target] pairs fields Hline _ IH]; intros src tgt.
  - simpl. by rewrite !app_nil_r.
  - cbn [_create_tm_loop]. simpl in Hline. rewrite Hline. simpl.
    rewrite filter_cons.
    destruct (decide (within_bounds min_length max_length (source, target)))
      as [Hin|Hin]; unfold within_bounds in Hin; simpl in Hin.
    + replace (len source <? min_length) with false by lia.
      replace (max_length <? len source) with false by lia. simpl.
      rewrite IH. simpl. by rewrite <- !app_assoc.
    + destruct (len source <? min_length) eqn:E1; simpl; [apply IH |].
      destruct (max_length <? len source) eqn:E2; simpl; [apply IH | lia].
Qed.

(** A line that does not unpack aborts the load. *)
Lemma create_tm_loop_error delimiter min_length max_length pairs src tgt :
  ¬ Forall (two_fields delimiter) pairs →
  _create_tm_loop delimiter min_length max_length pairs src tgt = Raise ValueError.
Proof.
  revert src tgt. induction pairs as [|line pairs IH]; intros src tgt Hbad.
  - by destruct Hbad.
  - cbn [_create_tm_loop].
    destruct (str_split delimiter line) as [fs|e] eqn:Hline; simpl.
    + destruct fs as [|source [|target [|x fs]]]; try done.
      assert (¬ Forall (two_fields delimiter) pairs) as Hrest.
      { intros Hall. apply Hbad. constructor; [| done]. by exists source, target. }
      destruct (_ || _); by apply IH.
    + by rewrite (str_split_error _ _ _ Hline).
Qed.

Lemma two_fields_Forall2 delimiter pairs :
  Forall (two_fields delimiter) pairs →
  ∃ fields : list (string * string),
    Forall2 (λ line f, str_split delimiter line = Ok [f.1; f.2]) pairs fields.
Proof.
  induction 1 as [|line pairs (source & target & Hline) _ (fields & IH)].
  - by exists [].
  - exists ((source, target) :: fields). by constructor.
Qed.

Lemma two_fields_dec delimiter line :
  two_fields delimiter line ∨ ¬ two_fields delimiter line.
Proof.
  unfold two_fields. destruct (str_split delimiter line) as [fs|e].
  - destruct fs as [|source [|target [|x fs]]];
      [right | right | left; by exists source, target | right];
      intros (s & t & Hst); done.
  - right. intros (s & t & Hst). done.
Qed.

Lemma two_fields_Forall_dec delimiter pairs :
  Forall (two_fields delimiter) pairs ∨ ¬ Forall (two_fields delimiter) pairs.
Proof.
  induction pairs as [|line pairs [IH|IH]].
  - by left.
  - destruct (two_fields_dec delimiter line) as [Hl|Hl].
    + left. by constructor.
    + right. by inversion 1.
  - right. by inversion 1.
Qed.

(** The load either succeeds or raises [ValueError]. *)
Lemma create_tm_cases delimiter min_length max_length pairs :
  (Forall (two_fields delimiter) pairs
   ∧ ∃ tm, _create_tm delimiter min_length max_length (Some pairs) = Ok tm)
  ∨ (¬ Forall (two_fields delimiter) pairs
     ∧ _create_tm delimiter min_length max_length (Some pairs) = Raise ValueError).
Proof.
  destruct (two_fields_Forall_dec delimiter pairs) as [Hall|Hbad].
  - left. split; [done |].
    destruct (two_fields_Forall2 _ _ Hall) as [fields HF].
    eexists. simpl. by apply create_tm_loop_ok.
  - right. split; [done |]. by apply create_tm_loop_error.
Qed.

(** C5, as the code has it: during TM load every line is split at every
    occurrence of the delimiter found from the left without overlap.  The
    load succeeds exactly when every line gives two fields, and then each
    line is its source, the delimiter and its target; otherwise
    [ValueError] is raised, no TM is returned and no matcher is built.  A
    line in which the delimiter occurs twice without overlap, that is a
    line made of a text, the delimiter, a text, the delimiter and a text,
    does not give two fields. *)
Theorem create_tm_format (delimiter : string) (min_length max_length : Z)
    (pairs : list string) :
  (Forall (two_fields delimiter) pairs
   ↔ ∃ tm, _create_tm delimiter min_length max_length (Some pairs) = Ok tm)
  ∧ (¬ Forall (two_fields delimiter) pairs
     ↔ _create_tm delimiter min_length max_length (Some pairs) = Raise ValueError)
  ∧ (¬ Forall (two_fields delimiter) pairs →
     ∀ ratio cutoff token,
       FuzzyMatcher_init (Some pairs) ratio cutoff delimiter token
         min_length max_length
       = Raise ValueError)
  ∧ (∀ line source target,
       str_split delimiter line = Ok [source; target] →
       line = source +:+ delimiter +:+ target)
  ∧ (∀ a b c,
       ¬ two_fields delimiter (a +:+ delimiter +:+ b +:+ delimiter +:+ c)).
Proof.
  split; [| split; [| split; [| split]]].
  - destruct (create_tm_cases delimiter min_length max_length pairs)
      as [[Hall Hok]|[Hbad Herr]]; split; try done.
    intros [tm Htm]. congruence.
  - destruct (create_tm_cases delimiter min_length max_length pairs)
      as [[Hall [tm Hok]]|[Hbad Herr]]; split; try done.
    intros Herr. congruence.
  - intros Hbad ratio cutoff token. unfold FuzzyMatcher_init.
    destruct (create_tm_cases delimiter min_length max_length pairs)
      as [[Hall _]|[_ ->]]; done.
  - apply two_fields_join.
  - apply two_fields_twice.
Qed.

(** C5, as stated, fails: a line in which the tab occurs twice gives three
    fields, and the load raises instead of keeping two of them. *)
Lemma create_tm_delimiter_twice :
  str_split TAB tm_line_twice = Ok ["hello world"; "bonjour"; "monde" +:+ NL]
  ∧ ¬ (∃ tm, _create_tm TAB 4 70 (Some [tm_line_twice]) = Ok tm).
Proof.
  split; [reflexivity |]. intros [tm Htm]. vm_compute in Htm. discriminate.
Qed.

(** Occurrences of the delimiter that overlap are cut once: such a line
    gives two fields and loads. *)
Example create_tm_overlapping_delimiters :
  str_split " ||| " "abcd ||| ||| b" = Ok ["abcd"; "||| b"]
  ∧ _create_tm " ||| " 4 70 (Some ["abcd ||| ||| b"]) = Ok (["abcd"], ["||| b"])
  ∧ str_split "aa" "aaa" = Ok [""; "a"].
Proof. repeat split; vm_compute; reflexivity. Qed.

(** C8: the loaded TM holds exactly the lines whose raw source field has a
    length within [[min_length, max_length]], in order; only the source
    field is measured; both fields are stored stripped; sources and targets
    are aligned and equally many. *)
Theorem create_tm_contents (delimiter : string) (min_length max_length : Z)
    (pairs src tgt : list string) :
  _create_tm delimiter min_length max_length (Some pairs) = Ok (src, tgt) →
  ∃ fields : list (string * string),
    Forall2 (λ line f, str_split delimiter line = Ok [f.1; f.2]) pairs fields
    ∧ src = (strip ∘ fst <$> filter (within_bounds min_length max_length) fields)
    ∧ tgt = (strip ∘ snd <$> filter (within_bounds min_length max_length) fields)
    ∧ length src = length tgt
    ∧ Forall (λ s, starts_with_space s = false ∧ ends_with_space s = false)
        (src ++ tgt).
Proof.
  intros Hload.
  destruct (create_tm_cases delimiter min_length max_length pairs)
    as [[Hall _]|[_ Herr]]; [| congruence].
  destruct (two_fields_Forall2 _ _ Hall) as [fields HF].
  exists fields. split; [done |].
  simpl in Hload. rewrite (create_tm_loop_ok _ _ _ _ _ [] [] HF) in Hload.
  injection Hload as <- <-. simpl.
  split; [done |]. split; [done |]. split; [by rewrite !length_fmap |].
  apply Forall_app. split; apply Forall_fmap, Forall_forall; intros f _; simpl;
    by destruct (strip_spec f.1) as (? & ? & _ & _ & _ & ? & ?),
                (strip_spec f.2) as (? & ? & _ & _ & _ & ? & ?).
Qed.

Lemma create_tm_contents_witness :
  ∃ fields : list (string * string),
    Forall2 (λ line f, str_split TAB line = Ok [f.1; f.2]) tm_lines fields
    ∧ ["hello worlX"; "ab"] = (strip ∘ fst <$> filter (within_bounds 4 70) fields)
    ∧ ["bonjour mondeX"; "cd"] = (strip ∘ snd <$> filter (within_bounds 4 70) fields)
    ∧ length ["hello worlX"; "ab"] = length ["bonjour mondeX"; "cd"]
    ∧ Forall (λ s, starts_with_space s = false ∧ ends_with_space s = false)
        (["hello worlX"; "ab"] ++ ["bonjour mondeX"; "cd"]).
Proof.
  apply (create_tm_contents TAB 4 70 tm_lines). vm_compute. reflexivity.
Defined.

(** ** Chunking *)

Lemma sub_arys_concat {A : Type} (sizes : list nat) (ary : list A) :
  concat (sub_arys sizes ary) = take (sum_list sizes) ary.
Proof.
  revert ary. induction sizes as [|k sizes IH]; intros ary; simpl.
  - by rewrite take_0.
  - by rewrite IH, take_take_drop.
Qed.

Lemma sub_arys_length {A : Type} (sizes : list nat) (ary : list A) :
  length (sub_arys sizes ary) = length sizes.
Proof.
  revert ary. induction sizes as [|k sizes IH]; intros ary; simpl; [done |].
  by rewrite IH.
Qed.

Lemma sub_arys_bound {A : Type} (bound : nat) (sizes : list nat) (ary : list A) :
  Forall (λ k, k ≤ bound)%nat sizes →
  Forall (λ chunk, length chunk ≤ bound)%nat (sub_arys sizes ary).
Proof.
  intros HF. revert ary. induction HF as [|k sizes Hk _ IH]; intros ary; simpl.
  - constructor.
  - constructor; [| apply IH]. rewrite length_take. lia.
Qed.

(** The sections of [np.array_split] are the array cut in order: there are
    [Nsections] of them, they concatenate to the array, and none is longer
    than the quotient plus one. *)
Lemma array_split_ok {A : Type} (ary : list A) (Nsections : nat) :
  Nsections ≠ O →
  ∃ chunks, array_split ary Nsections = Ok chunks
    ∧ concat chunks = ary
    ∧ length chunks = Nsections
    ∧ Forall (λ chunk,
        length chunk ≤ length ary / Nsections
                       + (if decide (length ary mod Nsections = 0) then 0 else 1))%nat
        chunks.
Proof.
  intros Hn. unfold array_split. destruct Nsections as [|n]; [done |].
  set (N := S n) in *. eexists. split; [done |].
  pose proof (Nat.div_mod_eq (length ary) N) as Hdm.
  pose proof (Nat.mod_upper_bound (length ary) N Hn) as Hmod.
  split; [| split].
  - rewrite sub_arys_concat, sum_list_with_app, !sum_list_replicate.
    apply take_ge. nia.
  - rewrite sub_arys_length, length_app, !length_replicate. lia.
  - apply sub_arys_bound, Forall_app. split.
    + destruct (length ary mod N)%nat eqn:E; [constructor |].
      apply Forall_replicate. case_decide; lia.
    + apply Forall_replicate. lia.
Qed.

Lemma chunk_size_ge : (2 ≤ chunk_size)%nat.
Proof. unfold chunk_size. lia. Qed.

(** What the pagination of [_get_batch_matches] gives: at least one chunk,
    the chunks in order make up the batch, and a chunk has fewer than twice
    [chunk_size] items. *)
Lemma mini_batches_of_ok (batch : list string) :
  ∃ chunks, mini_batches_of batch = Ok chunks
    ∧ concat chunks = batch
    ∧ chunks ≠ []
    ∧ Forall (λ chunk, length chunk < 2 * chunk_size)%nat chunks.
Proof.
  unfold mini_batches_of.
  pose proof chunk_size_ge as Hcs.
  set (cs := chunk_size) in *. clearbody cs.
  set (len := length batch).
  destruct (cs <? len)%nat eqn:Hlt.
  - apply Nat.ltb_lt in Hlt.
    pose proof (Nat.div_mod_eq len cs) as Hdm.
    pose proof (Nat.mod_upper_bound len cs ltac:(lia)) as Hmod.
    assert (1 ≤ len / cs)%nat as Hn.
    { apply Nat.div_le_lower_bound; lia. }
    destruct (array_split_ok batch (len / cs)%nat ltac:(lia))
      as (chunks & -> & Hcat & Hlen & Hbound).
    exists chunks. split; [done |]. split; [done |]. split.
    { intros ->. simpl in Hlen. lia. }
    eapply Forall_impl; [exact Hbound |]. intros chunk Hchunk. simpl in Hchunk.
    fold len in Hchunk.
    set (n := (len / cs)%nat) in *.
    pose proof (Nat.div_mod_eq len n) as Hdm'.
    pose proof (Nat.mod_upper_bound len n ltac:(lia)) as Hmod'.
    case_decide as Hz.
    + assert (len / n < 2 * cs)%nat; [| lia].
      apply Nat.Div0.div_lt_upper_bound. nia.
    + assert (2 ≤ n)%nat as Hn2.
      { destruct (decide (n = 1%nat)) as [E|]; [| lia].
        rewrite E in Hz. by rewrite Nat.mod_1_r in Hz. }
      assert (2 * (len / n) < 3 * cs)%nat; [| lia].
      assert (n * (len / n) < cs * n + cs)%nat by lia.
      nia.
  - destruct (array_split_ok batch 1 ltac:(lia))
      as (chunks & -> & Hcat & Hlen & Hbound).
    exists chunks. split; [done |]. split; [done |]. split.
    { intros ->. simpl in Hlen. lia. }
    apply Nat.ltb_ge in Hlt.
    eapply Forall_impl; [exact Hbound |]. intros chunk Hchunk. cbv beta in Hchunk.
    rewrite Nat.div_1_r, Nat.mod_1_r in Hchunk.
    rewrite decide_True in Hchunk by done. lia.
Qed.

(** Up to twice [chunk_size] the batch is one chunk. *)
Lemma mini_batches_of_single (batch : list string) :
  (length batch < 2 * chunk_size)%nat → mini_batches_of batch = Ok [batch].
Proof.
  intros Hlen. unfold mini_batches_of.
  assert ((if (chunk_size <? length batch)%nat
           then (length batch / chunk_size)%nat else 1%nat) = 1%nat) as ->.
  { destruct (chunk_size <? length batch)%nat eqn:Hlt; [| done].
    apply Nat.ltb_lt in Hlt.
    pose proof chunk_size_ge.
    apply Nat.le_antisymm.
    - apply Nat.lt_succ_r, Nat.Div0.div_lt_upper_bound. lia.
    - apply Nat.div_le_lower_bound; lia. }
  unfold array_split. rewrite Nat.div_1_r, Nat.mod_1_r. simpl.
  by rewrite firstn_all.
Qed.

(** ** numpy reductions *)

Lemma any_row_nonempty (row : list Z) : any_row row = true → row ≠ [].
Proof. by destruct row. Qed.

Lemma any_row_cell (row : list Z) :
  any_row row = true ↔ ∃ j v, row !! j = Some v ∧ v ≠ 0.
Proof.
  unfold any_row. rewrite existsb_exists. split.
  - intros (v & Hin & Hv). apply list_elem_of_In, list_elem_of_lookup in Hin.
    destruct Hin as [j Hj]. exists j, v. split; [done |].
    destruct (v =? 0) eqn:E; [done | lia].
  - intros (j & v & Hj & Hv). exists v. split.
    + apply list_elem_of_In. by eapply list_elem_of_lookup_2.
    + destruct (v =? 0) eqn:E; [lia | done].
Qed.

Lemma argmax_go_first_max (pre row : list Z) (best : Z) (besti : nat) :
  pre !! besti = Some best →
  first_max pre besti →
  first_max (pre ++ row) (argmax_go row (length pre) best besti).
Proof.
  revert pre best besti.
  induction row as [|v row IH]; intros pre best besti Hbest Hmax; simpl.
  - by rewrite app_nil_r.
  - destruct Hmax as (b & Hb & Hle & Hlt).
    assert (b = best) as -> by congruence.
    replace (pre ++ v :: row) with ((pre ++ [v]) ++ row) by (by rewrite <- app_assoc).
    replace (S (length pre)) with (length (pre ++ [v]))
      by (rewrite length_app; simpl; lia).
    destruct (best <? v) eqn:E.
    + apply IH.
      * by rewrite lookup_app_r, Nat.sub_diag.
      * exists v. split; [by rewrite lookup_app_r, Nat.sub_diag |]. split.
        -- intros j w Hj. apply lookup_app_Some in Hj as [Hj|[_ Hj]].
           ++ specialize (Hle _ _ Hj). lia.
           ++ apply list_lookup_singleton_Some in Hj as [_ ->]. lia.
        -- intros j w Hjk Hj. rewrite lookup_app_l in Hj by done.
           specialize (Hle _ _ Hj). lia.
    + apply IH.
      * rewrite lookup_app_l; [done |]. by eapply lookup_lt_Some.
      * exists best. split.
        { rewrite lookup_app_l; [done |]. by eapply lookup_lt_Some. }
        split.
        -- intros j w Hj. apply lookup_app_Some in Hj as [Hj|[_ Hj]].
           ++ by eapply Hle.
           ++ apply list_lookup_singleton_Some in Hj as [_ ->]. lia.
        -- intros j w Hjk Hj. eapply Hlt; [done |].
           rewrite lookup_app_l in Hj; [done |].
           apply lookup_lt_Some in Hbest. lia.
Qed.

(** [np.argmax] of a non-empty row is the first position of its largest
    cell. *)
Lemma argmax_row_first_max (row : list Z) :
  row ≠ [] → first_max row (argmax_row row).
Proof.
  destruct row as [|v row]; [done |]. intros _. unfold argmax_row.
  apply (argmax_go_first_max [v] row v 0); [done |].
  exists v. split; [done |]. split.
  - intros j w Hj. apply list_lookup_singleton_Some in Hj as [_ ->]. lia.
  - intros j w Hj. lia.
Qed.

Lemma argmax_row_lt (row : list Z) :
  row ≠ [] → (argmax_row row < length row)%nat.
Proof.
  intros Hne. destruct (argmax_row_first_max row Hne) as (best & Hb & _).
  by eapply lookup_lt_Some.
Qed.

Lemma py_index_Ok {A : Type} (l : list A) (k : nat) (x : A) :
  py_index l k = Ok x ↔ l !! k = Some x.
Proof. unfold py_index. destruct (l !! k); split; congruence. Qed.

(** ** Positions rewritten by the augmenter *)

Lemma filter_fmap_pre {A B : Type} (f : A → B) (P : B → Prop)
    `{!∀ y, Decision (P y)} (l : list A) :
  filter P (f <$> l) = f <$> filter (λ x, P (f x)) l.
Proof.
  induction l as [|x l IH]; [done |].
  rewrite fmap_cons, !filter_cons. destruct (decide (P (f x))); simpl; by rewrite IH.
Qed.

Lemma augmented_positions_cons (a b : string) (l1 l2 : list string) :
  augmented_positions (a :: l1) (b :: l2)
  = (if decide (a = b) then [] else [O]) ++ (S <$> augmented_positions l1 l2).
Proof.
  unfold augmented_positions. cbn [length seq].
  rewrite filter_cons. rewrite <- fmap_S_seq, filter_fmap_pre.
  destruct (decide (a = b)) as [->|Hne].
  - rewrite decide_False; [done |]. simpl. by intros Hx; apply Hx.
  - rewrite decide_True; [done |]. simpl. congruence.
Qed.

Lemma augmented_positions_same (l : list string) : augmented_positions l l = [].
Proof.
  induction l as [|a l IH]; [done |].
  rewrite augmented_positions_cons, IH. by rewrite decide_True.
Qed.

Lemma augmented_positions_elem (l1 l2 : list string) (idx : nat) :
  idx ∈ augmented_positions l1 l2 ↔ (idx < length l1)%nat ∧ l1 !! idx ≠ l2 !! idx.
Proof.
  unfold augmented_positions. rewrite list_elem_of_filter, elem_of_seq.
  split; intros [? ?]; split; try done; lia.
Qed.

(** ** The loop over the items of a chunk *)

Section Loop.
Context `{Scorer} `{FloatArith}.

Lemma quota_reached_false (cap : Q) (fuzzy_count : nat) :
  quota_reached cap fuzzy_count = false
  ↔ (inject_Z (Z.of_nat fuzzy_count) < cap)%Q.
Proof.
  unfold quota_reached. rewrite <- not_true_iff_false, Qle_bool_iff.
  split; [apply Qnot_le_lt | apply Qlt_not_le].
Qed.

Lemma quota_reached_true (cap : Q) (fuzzy_count : nat) :
  quota_reached cap fuzzy_count = true
  ↔ (cap <= inject_Z (Z.of_nat fuzzy_count))%Q.
Proof. apply Qle_bool_iff. Qed.

Lemma score_item_wf (self : FuzzyMatcher) (plist : list string) :
  Forall scored_wf (score_item self <$> plist).
Proof.
  apply Forall_fmap, Forall_forall. intros s _ Hm. simpl in *.
  by apply argmax_row_lt, any_row_nonempty.
Qed.

Lemma score_item_items (self : FuzzyMatcher) (plist : list string) :
  map (λ it : scored, it.1.1.1) (score_item self <$> plist) = plist.
Proof. induction plist as [|s plist IH]; simpl; [done | f_equal; exact IH]. Qed.

(** The four sequences the loop reads in parallel are the items, each with
    its own row of scores. *)
Lemma enumerate_score_item (self : FuzzyMatcher) (plist : list string) :
  let results := cdist plist (internal_tm self).1 (threshold self) in
  enumerate plist (np_any results) results (map argmax_row (rows results))
  = (score_item self <$> plist).
Proof.
  unfold enumerate, np_any, cdist. simpl.
  induction plist as [|s plist IH]; [done |]. simpl. f_equal. exact IH.
Qed.

(** Once the quota is reached the loop leaves every item as it is. *)
Lemma for_items_skip (self : FuzzyMatcher) (cap : Q) (items : list scored)
    (fuzzy_count : nat) :
  quota_reached cap fuzzy_count = true →
  Forall scored_wf items →
  for_items self cap items fuzzy_count
  = Ok (map (λ it : scored, it.1.1.1) items, fuzzy_count).
Proof.
  intros Hq Hwf. induction Hwf as [|[[[s matched] row] best] items Hit _ IH]; [done |].
  cbn [for_items]. destruct (contains _ s); [by rewrite IH |].
  destruct matched; simpl; [| by rewrite IH].
  specialize (Hit eq_refl). simpl in Hit.
  unfold py_index. destruct (lookup_lt_is_Some_2 row best Hit) as [score ->]. simpl.
  destruct (score <? 100); simpl; [by rewrite Hq | by rewrite IH].
Qed.

(** The loop over two chunks in a row is the loop over the first followed
    by the loop over the second. *)
Lemma for_items_app (self : FuzzyMatcher) (cap : Q) (items1 items2 : list scored)
    (fuzzy_count : nat) :
  Forall scored_wf items2 →
  for_items self cap (items1 ++ items2) fuzzy_count
  = ('(plist1, n1) ← for_items self cap items1 fuzzy_count;
     '(plist2, n2) ← for_items self cap items2 n1;
     Ok (plist1 ++ plist2, n2)).
Proof.
  intros Hwf. revert fuzzy_count.
  induction items1 as [|[[[s matched] row] best] items1 IH]; intros fuzzy_count.
  - simpl. by destruct (for_items self cap items2 fuzzy_count) as [[? ?]|].
  - cbn [app for_items].
    assert (∀ fc,
      ('(plist, n) ← for_items self cap (items1 ++ items2) fc; Ok (s :: plist, n))
      = ('(plist1, n1) ← ('(plist, n) ← for_items self cap items1 fc;
                           Ok (s :: plist, n));
         '(plist2, n2) ← for_items self cap items2 n1;
         Ok (plist1 ++ plist2, n2))) as Hkeep.
    { intros fc. rewrite IH.
      destruct (for_items self cap items1 fc) as [[p1 n1]|]; simpl; [| done].
      by destruct (for_items self cap items2 n1) as [[p2 n2]|]. }
    destruct (contains _ s); [apply Hkeep |].
    destruct (if matched then _ else _) as [[|]|e]; simpl; [| apply Hkeep | done].
    destruct (quota_reached cap fuzzy_count) eqn:Hq.
    + simpl. rewrite (for_items_skip self cap items2 fuzzy_count Hq Hwf). simpl.
      by rewrite map_app.
    + destruct (py_index _ best) as [target|e]; simpl; [| done].
      rewrite IH.
      destruct (for_items self cap items1 (S fuzzy_count)) as [[p1 n1]|]; simpl; [| done].
      by destruct (for_items self cap items2 n1) as [[p2 n2]|].
Qed.

(** What a finished loop has done: every place holds an outcome of its
    item, the counter grew by the number of rewritten places, and each
    rewriting happened below the quota. *)
Lemma for_items_inv (self : FuzzyMatcher) (cap : Q) (items : list scored)
    (fuzzy_count : nat) (plist : list string) (n : nat) :
  for_items self cap items fuzzy_count = Ok (plist, n) →
  Forall2 (item_outcome self) items plist
  ∧ n = (fuzzy_count
         + length (augmented_positions (map (λ it : scored, it.1.1.1) items) plist))%nat
  ∧ (n = fuzzy_count ∨ quota_reached cap (n - 1) = false).
Proof.
  revert fuzzy_count plist n.
  induction items as [|[[[s matched] row] best] items IH]; intros fc plist n Hrun.
  - injection Hrun as <- <-. split; [constructor |]. split; [simpl; lia | by left].
  - cbn [for_items] in Hrun.
    assert (∀ fc', ('(plist, n) ← for_items self cap items fc'; Ok (s :: plist, n))
                   = Ok (plist, n) →
            fc' = fc →
            Forall2 (item_outcome self) ((s, matched, row, best) :: items) plist
            ∧ n = (fc + length (augmented_positions
                                  (map (λ it : scored, it.1.1.1)
                                     ((s, matched, row, best) :: items)) plist))%nat
            ∧ (n = fc ∨ quota_reached cap (n - 1) = false)) as Hkeep.
    { intros fc' Hk ->.
      destruct (for_items self cap items fc) as [[p1 n1]|] eqn:E; simpl in Hk; [| done].
      injection Hk as <- <-. destruct (IH _ _ _ E) as (HF & Hn & Hq).
      split; [constructor; [by left | done] |]. split; [| done].
      cbn [map]. rewrite augmented_positions_cons, decide_True by done.
      simpl. by rewrite length_fmap. }
    destruct (contains _ s) eqn:Hc; [by eapply Hkeep |].
    destruct matched; simpl in Hrun; [| by eapply Hkeep].
    destruct (py_index row best) as [score|] eqn:Hrow; simpl in Hrun; [| done].
    apply py_index_Ok in Hrow.
    destruct (score <? 100) eqn:Hs; simpl in Hrun; [| by eapply Hkeep].
    destruct (quota_reached cap fc) eqn:Hq.
    + injection Hrun as <- <-. split; [| split; [| by left]].
      * constructor; [by left |].
        clear. induction items as [|it items IH]; constructor; [by left | done].
      * cbn [map]. rewrite augmented_positions_same. simpl. lia.
    + destruct (py_index _ best) as [target|] eqn:Ht; simpl in Hrun; [| done].
      apply py_index_Ok in Ht.
      destruct (for_items self cap items (S fc)) as [[p1 n1]|] eqn:E;
        simpl in Hrun; [| done].
      injection Hrun as <- <-. destruct (IH _ _ _ E) as (HF & Hn & Hb).
      split; [| split].
      * constructor; [| done]. right. simpl.
        split; [done |]. split; [done |]. split; [exists score; split; [done | lia] |].
        by exists target.
      * cbn [map]. rewrite augmented_positions_cons, decide_False.
        -- simpl. rewrite length_fmap. lia.
        -- intros Heq. by eapply augmented_ne.
      * right. destruct Hb as [->|Hb]; [| done].
        by replace (S fc - 1)%nat with fc by lia.
Qed.

(** The loop finishes when the targets reach as far as the rows. *)
Lemma for_items_total (self : FuzzyMatcher) (cap : Q) (items : list scored)
    (fuzzy_count : nat) :
  Forall (λ it : scored,
    it.1.1.2 = true →
    (it.2 < length it.1.2)%nat ∧ (it.2 < length (internal_tm self).2)%nat) items →
  ∃ plist n, for_items self cap items fuzzy_count = Ok (plist, n).
Proof.
  intros Hwf. revert fuzzy_count.
  induction Hwf as [|[[[s matched] row] best] items Hit _ IH]; intros fc.
  - by eexists _, _.
  - cbn [for_items].
    assert (∀ fc', ∃ plist n,
      ('(plist, n) ← for_items self cap items fc'; Ok (s :: plist, n))
      = Ok (plist, n)) as Hkeep.
    { intros fc'. destruct (IH fc') as (p & n & ->). by eexists _, _. }
    destruct (contains _ s); [apply Hkeep |].
    destruct matched; simpl; [| apply Hkeep].
    destruct (Hit eq_refl) as [Hrow Htgt]. simpl in Hrow, Htgt.
    unfold py_index.
    destruct (lookup_lt_is_Some_2 row best Hrow) as [score ->]. simpl.
    destruct (score <? 100); simpl; [| apply Hkeep].
    destruct (quota_reached cap fc); [by eexists _, _ |].
    destruct (lookup_lt_is_Some_2 _ best Htgt) as [target ->]. simpl.
    destruct (IH (S fc)) as (p & n & ->). by eexists _, _.
Qed.
End Loop.

(** ** Chunks and the whole batch *)

Section Batch.
Context `{Scorer} `{FloatArith}.

(** One chunk: skipped when the quota is reached, an error of
    [np.argmax] when the TM has no source, the loop over the scored items
    otherwise. *)
Lemma for_mini_batch_unfold (self : FuzzyMatcher) (cap : Q) (plist : list string)
    (fuzzy_count : nat) :
  for_mini_batch self cap plist fuzzy_count
  = if quota_reached cap fuzzy_count then Ok (plist, fuzzy_count)
    else match (internal_tm self).1 with
         | [] => Raise ValueError
         | _ => for_items self cap (score_item self <$> plist) fuzzy_count
         end.
Proof.
  unfold for_mini_batch. destruct (quota_reached cap fuzzy_count); [done |].
  pose proof (enumerate_score_item self plist) as Henum. cbv zeta in Henum.
  set (results := cdist plist (internal_tm self).1 (threshold self)) in *.
  unfold np_argmax.
  assert (ncols results = length (internal_tm self).1) as -> by done.
  destruct (internal_tm self).1 as [|source sources]; [done |].
  exact (f_equal (λ items, for_items self cap items fuzzy_count) Henum).
Qed.

Lemma for_mini_batch_scored (self : FuzzyMatcher) (cap : Q) (plist : list string)
    (fuzzy_count : nat) :
  (internal_tm self).1 ≠ [] →
  for_mini_batch self cap plist fuzzy_count
  = for_items self cap (score_item self <$> plist) fuzzy_count.
Proof.
  intros Hne. rewrite for_mini_batch_unfold.
  destruct (quota_reached cap fuzzy_count) eqn:Hq.
  - rewrite for_items_skip by (done || apply score_item_wf).
    by rewrite score_item_items.
  - by destruct (internal_tm self).1.
Qed.

(** With a TM that has sources, the chunks processed in order are the loop
    over all their items. *)
Lemma for_mini_batches_scored (self : FuzzyMatcher) (cap : Q)
    (chunks : list (list string)) (augmented : list string) (fuzzy_count : nat) :
  (internal_tm self).1 ≠ [] →
  for_mini_batches self cap chunks augmented fuzzy_count
  = ('(plist, n) ← for_items self cap (score_item self <$> concat chunks) fuzzy_count;
     Ok (augmented ++ plist, n)).
Proof.
  intros Hne. revert augmented fuzzy_count.
  induction chunks as [|chunk chunks IH]; intros augmented fuzzy_count.
  - simpl. by rewrite app_nil_r.
  - cbn [for_mini_batches concat]. rewrite for_mini_batch_scored by done.
    rewrite fmap_app, for_items_app by apply score_item_wf.
    destruct (for_items self cap (score_item self <$> chunk) fuzzy_count)
      as [[p1 n1]|]; simpl; [| done].
    rewrite IH.
    destruct (for_items self cap (score_item self <$> concat chunks) n1)
      as [[p2 n2]|]; simpl; [| done].
    by rewrite app_assoc.
Qed.

(** With a TM without sources every chunk is skipped, or the first one
    raises. *)
Lemma for_mini_batches_empty_tm (self : FuzzyMatcher) (cap : Q)
    (chunks : list (list string)) (augmented : list string) (fuzzy_count : nat) :
  (internal_tm self).1 = [] →
  chunks ≠ [] →
  for_mini_batches self cap chunks augmented fuzzy_count
  = if quota_reached cap fuzzy_count
    then Ok (augmented ++ concat chunks, fuzzy_count)
    else Raise ValueError.
Proof.
  intros Htm Hne. destruct (quota_reached cap fuzzy_count) eqn:Hq.
  - clear Hne. revert augmented.
    induction chunks as [|chunk chunks IH]; intros augmented.
    + simpl. by rewrite app_nil_r.
    + cbn [for_mini_batches concat]. rewrite for_mini_batch_unfold, Hq. simpl.
      by rewrite IH, app_assoc.
  - destruct chunks as [|chunk chunks]; [done |].
    cbn [for_mini_batches]. by rewrite for_mini_batch_unfold, Hq, Htm.
Qed.

(** The chunked augmenter does what one pass over the whole batch does. *)
Lemma get_batch_matches_count_whole (self : FuzzyMatcher) (batch : list string) :
  _get_batch_matches_count self batch = whole_batch_count self batch.
Proof.
  unfold _get_batch_matches_count, whole_batch_count.
  destruct (mini_batches_of_ok batch) as (chunks & -> & Hcat & Hne & _). simpl.
  rewrite for_mini_batch_unfold.
  destruct (internal_tm self).1 as [|source sources] eqn:Htm.
  - rewrite for_mini_batches_empty_tm by done. by rewrite Hcat.
  - rewrite for_mini_batches_scored by (by rewrite Htm). rewrite Hcat.
    destruct (quota_reached _ 0) eqn:Hq.
    + rewrite for_items_skip by (done || apply score_item_wf).
      simpl. by rewrite score_item_items.
    + by destruct (for_items _ _ _ _) as [[p n]|].
Qed.

(** What the augmenter returns is what the loop over all the items of the
    batch returns. *)
Lemma get_batch_matches_count_items (self : FuzzyMatcher) (batch out : list string)
    (n : nat) :
  _get_batch_matches_count self batch = Ok (out, n) →
  for_items self (quota self batch) (score_item self <$> batch) 0 = Ok (out, n).
Proof.
  rewrite get_batch_matches_count_whole. unfold whole_batch_count.
  rewrite for_mini_batch_unfold.
  destruct (quota_reached _ 0) eqn:Hq.
  - intros [= <- <-]. rewrite for_items_skip by (done || apply score_item_wf).
    by rewrite score_item_items.
  - by destruct (internal_tm self).1.
Qed.

(** The augmenter returns when the TM has a source, and a target for
    every source. *)
Lemma get_batch_matches_count_total (self : FuzzyMatcher) (batch : list string) :
  (internal_tm self).1 ≠ [] →
  length (internal_tm self).1 = length (internal_tm self).2 →
  ∃ out n, _get_batch_matches_count self batch = Ok (out, n).
Proof.
  intros Hne Hlen. rewrite get_batch_matches_count_whole. unfold whole_batch_count.
  rewrite for_mini_batch_scored by done.
  apply for_items_total, Forall_fmap, Forall_forall. intros s _ Hm. simpl in *.
  pose proof (argmax_row_lt _ (any_row_nonempty _ Hm)) as Hlt.
  assert (length (row_of self s) = length (internal_tm self).1) as Hrow
    by apply length_map.
  split; [done | lia].
Qed.

(** Without a source in the TM, and the quota not reached at entry, the
    augmenter raises. *)
Lemma get_batch_matches_count_empty_tm (self : FuzzyMatcher) (batch : list string) :
  (internal_tm self).1 = [] →
  quota_reached (quota self batch) 0 = false →
  _get_batch_matches_count self batch = Raise ValueError.
Proof.
  intros Htm Hq. rewrite get_batch_matches_count_whole. unfold whole_batch_count.
  by rewrite for_mini_batch_unfold, Hq, Htm.
Qed.

(** Place by place: what stands at [idx] in the result is an outcome of
    the item at [idx] in the batch. *)
Lemma get_batch_matches_count_lookup (self : FuzzyMatcher) (batch out : list string)
    (n : nat) :
  _get_batch_matches_count self batch = Ok (out, n) →
  length out = length batch
  ∧ (∀ idx s, batch !! idx = Some s →
       ∃ o, out !! idx = Some o
         ∧ (o = s
            ∨ (contains (fuzzy_token self) s = false
               ∧ any_row (row_of self s) = true
               ∧ (∃ score, row_of self s !! argmax_row (row_of self s) = Some score
                           ∧ score < 100)
               ∧ ∃ target,
                   (internal_tm self).2 !! argmax_row (row_of self s) = Some target
                   ∧ o = s +:+ fuzzy_token self +:+ target)))
  ∧ n = length (augmented_positions batch out)
  ∧ (n = O ∨ quota_reached (quota self batch) (n - 1) = false).
Proof.
  intros Hrun. apply get_batch_matches_count_items, for_items_inv in Hrun.
  destruct Hrun as (HF & Hn & Hq). rewrite score_item_items in Hn.
  split; [| split; [| done]].
  - apply Forall2_length in HF. by rewrite length_fmap in HF.
  - intros idx s Hs.
    assert ((score_item self <$> batch) !! idx = Some (score_item self s)) as Hit
      by (by rewrite list_lookup_fmap, Hs).
    destruct (Forall2_lookup_l _ _ _ _ _ HF Hit) as (o & Ho & Hout).
    exists o. split; [done | exact Hout].
Qed.
End Batch.

(** ** Items read back from a numpy array *)

Lemma np_str_id (s : string) : ends_with_nul s = false → np_str s = s.
Proof.
  induction s as [|c s IH]; [done |]. intros He. cbn [np_str].
  destruct s as [|d s'].
  - cbn in He |- *. by rewrite He.
  - by rewrite (IH He).
Qed.

Lemma np_array_id (batch : list string) :
  Forall (λ s, ends_with_nul s = false) batch → np_array batch = batch.
Proof.
  unfold np_array. induction 1 as [|s batch Hs _ IH]; [done |].
  by rewrite fmap_cons, IH, (np_str_id s Hs).
Qed.

Lemma np_array_lookup (batch : list string) (idx : nat) (s : string) :
  batch !! idx = Some s → np_array batch !! idx = Some (np_str s).
Proof. intros Hs. unfold np_array. by rewrite list_lookup_fmap, Hs. Qed.

Lemma np_array_length (batch : list string) : length (np_array batch) = length batch.
Proof. unfold np_array. by rewrite length_fmap. Qed.

(** A token without NUL characters that stands at the head of a string
    stands at the head of what numpy keeps of it. *)
Lemma prefix_np_str (token s : string) :
  nul_free token = true →
  String.prefix token s = true →
  String.prefix token (np_str s) = true.
Proof.
  revert s. induction token as [|c t IH]; intros s Hf Hp; [apply prefix_nil |].
  destruct s as [|c' s']; [done |].
  cbn [String.prefix] in Hp. destruct (ascii_dec c c') as [<-|]; [| done].
  cbn [nul_free] in Hf. apply andb_prop in Hf as [Hc Hf].
  specialize (IH s' Hf Hp). cbn [np_str].
  destruct (np_str s') as [|d r].
  - destruct t; [| done]. apply negb_true_iff in Hc. rewrite Hc.
    cbn [String.prefix]. by destruct (ascii_dec c c).
  - cbn [String.prefix]. by destruct (ascii_dec c c).
Qed.

Lemma contains_prefix (sub s : string) :
  String.prefix sub s = true → contains sub s = true.
Proof. intros Hp. destruct s; cbn [contains]; by rewrite Hp. Qed.

(** A token without NUL characters found in a string is found in what
    numpy keeps of it. *)
Lemma contains_np_str (token s : string) :
  nul_free token = true →
  contains token s = true →
  contains token (np_str s) = true.
Proof.
  intros Hf. induction s as [|c s IH]; intros Hc.
  - cbn [contains] in Hc. rewrite orb_false_r in Hc.
    by apply contains_prefix, prefix_np_str.
  - cbn [contains] in Hc. apply orb_prop in Hc as [Hp|Hc].
    + by apply contains_prefix, prefix_np_str.
    + specialize (IH Hc). cbn [np_str].
      destruct (np_str s) as [|d r] eqn:Hr.
      * cbn [contains] in IH. rewrite orb_false_r in IH.
        destruct token; [apply contains_nil | done].
      * cbn [contains] in IH |- *. rewrite IH. apply orb_true_r.
Qed.

(** ** The augmenter *)

Section Augmenter.
Context `{Scorer} `{FloatArith}.

Lemma get_batch_matches_Ok (self : FuzzyMatcher) (batch out : list string) :
  _get_batch_matches self batch = Ok out
  ↔ ∃ n, _get_batch_matches_count self batch = Ok (out, n).
Proof.
  unfold _get_batch_matches.
  destruct (_get_batch_matches_count self batch) as [[out' n]|e]; simpl.
  - split; [intros [= <-]; by exists n | intros [n' [= <- _]]; done].
  - split; [done | intros [n' ?]; done].
Qed.

Lemma quota_nonneg (self : FuzzyMatcher) (batch : list string) :
  (0 <= corpus_ratio self)%Q → (0 <= quota self batch)%Q.
Proof.
  intros Hr. apply float_mul_nonneg; [| done].
  change 0%Q with (inject_Z 0). rewrite <- Zle_Qle. lia.
Qed.

(** For a TM with a source, and a target for every source: the result has
    the length of the batch and holds at every place the item of the
    batch, as it was or followed by the token and a target of the TM. *)
Lemma get_batch_matches_length (self : FuzzyMatcher) (batch : list string) :
  (internal_tm self).1 ≠ [] →
  length (internal_tm self).1 = length (internal_tm self).2 →
  ∃ out, _get_batch_matches self batch = Ok out
    ∧ length out = length batch
    ∧ ∀ idx s, batch !! idx = Some s →
        ∃ o, out !! idx = Some o
          ∧ (o = s ∨ ∃ target, target ∈ (internal_tm self).2
                                ∧ o = s +:+ fuzzy_token self +:+ target).
Proof.
  intros Hne Hlen.
  destruct (get_batch_matches_count_total self batch Hne Hlen) as (out & n & Hrun).
  exists out. split; [apply get_batch_matches_Ok; by exists n |].
  destruct (get_batch_matches_count_lookup _ _ _ _ Hrun) as (Hl & Hout & _).
  split; [done |]. intros idx s Hs.
  destruct (Hout idx s Hs) as (o & Ho & [->|(_ & _ & _ & target & Ht & ->)]).
  - exists s. by split; [| left].
  - eexists. split; [done |]. right. exists target. split; [| done].
    by eapply list_elem_of_lookup_2.
Qed.

(** C1, as the code has it: the number of items augmented in one call is
    the final [fuzzy_count]; for every ratio in [[0,1]] it stays below
    [cap + 1], where [cap = len(batch) * ratio] is taken from the whole
    batch and compared unrounded; it does not exceed [cap] when [cap] is
    an integer. *)
Theorem quota_bound (self : FuzzyMatcher) (batch out : list string) (n : nat) :
  (0 <= corpus_ratio self <= 1)%Q →
  _get_batch_matches_count self batch = Ok (out, n) →
  n = length (augmented_positions batch out)
  ∧ (inject_Z (Z.of_nat n) < quota self batch + 1)%Q
  ∧ (∀ k : Z, (quota self batch == inject_Z k)%Q → Z.of_nat n ≤ k).
Proof.
  intros [Hr _] Hrun.
  destruct (get_batch_matches_count_lookup _ _ _ _ Hrun) as (_ & _ & Hn & Hq).
  pose proof (quota_nonneg self batch Hr) as Hcap.
  split; [done |]. clear Hn. destruct Hq as [->|Hq].
  - split; [change (inject_Z (Z.of_nat 0)) with 0%Q; lra |]. intros k Hk.
    rewrite Hk in Hcap.
    change 0%Q with (inject_Z 0) in Hcap. rewrite <- Zle_Qle in Hcap. lia.
  - apply quota_reached_false in Hq.
    destruct n as [|m]; [split; [change (inject_Z (Z.of_nat 0)) with 0%Q; lra |] |].
    + intros k Hk. rewrite Hk in Hcap.
      change 0%Q with (inject_Z 0) in Hcap. rewrite <- Zle_Qle in Hcap. lia.
    + replace (S m - 1)%nat with m in Hq by lia.
      replace (Z.of_nat (S m)) with (Z.of_nat m + 1) by lia.
      split.
      * rewrite inject_Z_plus. change (inject_Z 1) with 1%Q. lra.
      * intros k Hk. rewrite Hk in Hq. rewrite <- Zlt_Qlt in Hq. lia.
Qed.

(** A rewritten item lacks the token, has a cell that is not zero, has
    all its cells below 100, and holds the target found at the first
    position of its largest cell. *)
Lemma get_batch_matches_rewritten (self : FuzzyMatcher) (batch out : list string)
    (idx : nat) (s o : string) :
  _get_batch_matches self batch = Ok out →
  batch !! idx = Some s →
  out !! idx = Some o →
  o = s
  ∨ (contains (fuzzy_token self) s = false
     ∧ (∃ j v, row_of self s !! j = Some v ∧ v ≠ 0)
     ∧ (∀ j v, row_of self s !! j = Some v → v < 100)
     ∧ first_max (row_of self s) (argmax_row (row_of self s))
     ∧ ∃ target, (internal_tm self).2 !! argmax_row (row_of self s) = Some target
                 ∧ o = s +:+ fuzzy_token self +:+ target).
Proof.
  intros Hrun Hs Ho. apply get_batch_matches_Ok in Hrun as [n Hrun].
  destruct (get_batch_matches_count_lookup _ _ _ _ Hrun) as (_ & Hout & _).
  destruct (Hout idx s Hs) as (o' & Ho' & Hcase).
  assert (o' = o) as -> by congruence.
  destruct Hcase as [->|(Hc & Hm & (score & Hscore & Hlt) & target & Ht & ->)];
    [by left | right].
  pose proof (argmax_row_first_max _ (any_row_nonempty _ Hm)) as Hmax.
  split; [done |]. split; [by apply any_row_cell |].
  split; [| split; [done | by exists target]].
  intros j v Hj. destruct Hmax as (best & Hb & Hle & _).
  assert (best = score) as -> by congruence.
  specialize (Hle _ _ Hj). lia.
Qed.

(** C6: an item is augmented only if a source of the TM scores at least
    the threshold against it and its best score is below 100, and it
    then receives the token and the target at the first position of the
    best score; an item with a score of 100 or more is left as it is. *)
Theorem fuzzy_selection (self : FuzzyMatcher) (batch out : list string)
    (idx : nat) (s o : string) :
  _get_batch_matches self batch = Ok out →
  batch !! idx = Some s →
  out !! idx = Some o →
  (o ≠ s →
     (∃ j source, (internal_tm self).1 !! j = Some source
                  ∧ (threshold self <= fuzz_ratio s source)%Q)
     ∧ (∀ j score, row_of self s !! j = Some score → score < 100)
     ∧ first_max (row_of self s) (argmax_row (row_of self s))
     ∧ ∃ target, (internal_tm self).2 !! argmax_row (row_of self s) = Some target
                 ∧ o = s +:+ fuzzy_token self +:+ target)
  ∧ ((∃ j score, row_of self s !! j = Some score ∧ 100 ≤ score) → o = s).
Proof.
  intros Hrun Hs Ho.
  destruct (get_batch_matches_rewritten _ _ _ _ _ _ Hrun Hs Ho)
    as [->|(Hc & (j & v & Hj & Hv) & Hall & Hmax & target & Ht & ->)];
    [by split |].
  split.
  - intros _. split; [| split; [done | split; [done | by exists target]]].
    unfold row_of in Hj. rewrite list_lookup_fmap in Hj.
    destruct ((internal_tm self).1 !! j) as [source|] eqn:Hsrc; [| done].
    injection Hj as <-. exists j, source. split; [done |].
    unfold cdist_cell in Hv.
    destruct (Qle_bool _ _) eqn:Hcut; [| done]. by apply Qle_bool_iff.
  - intros (j' & v' & Hj' & Hv'). specialize (Hall _ _ Hj'). lia.
Qed.

Lemma quota_np_array (self : FuzzyMatcher) (batch : list string) :
  quota self (np_array batch) = quota self batch.
Proof. unfold quota. by rewrite np_array_length. Qed.

Lemma get_batch_matches_of_list_Ok (self : FuzzyMatcher) (batch out : list string) :
  _get_batch_matches_of_list self batch = Ok out
  ↔ _get_batch_matches self (np_array batch) = Ok out.
Proof. done. Qed.

(** C7, as the code has it: whatever the batch, the TM, the threshold and
    the ratio, an item in which the token is found once its trailing NUL
    characters are dropped stands in every result the augmenter returns as
    that item without its trailing NUL characters, so unchanged when it
    does not end in NUL, and is not among the items counted by
    [fuzzy_count].  A token without NUL characters that is found in the
    item is found in it without its trailing NULs.  The augmenter returns
    a result whenever the TM has a source and a target for every source;
    on a TM without sources it raises as soon as it scores a chunk. *)
Theorem marked_item_unchanged (self : FuzzyMatcher) (batch : list string)
    (idx : nat) (s : string) :
  batch !! idx = Some s →
  contains (fuzzy_token self) (np_str s) = true →
  (∀ out n, _get_batch_matches_of_list_count self batch = Ok (out, n) →
     out !! idx = Some (np_str s)
     ∧ (ends_with_nul s = false → out !! idx = Some s)
     ∧ (idx ∉ augmented_positions (np_array batch) out)
     ∧ n = length (augmented_positions (np_array batch) out))
  ∧ (nul_free (fuzzy_token self) = true →
     ∀ s', contains (fuzzy_token self) s' = true →
           contains (fuzzy_token self) (np_str s') = true)
  ∧ ((internal_tm self).1 ≠ [] →
     length (internal_tm self).1 = length (internal_tm self).2 →
     ∃ out n, _get_batch_matches_of_list_count self batch = Ok (out, n))
  ∧ ((internal_tm self).1 = [] →
     (0 < quota self batch)%Q →
     _get_batch_matches_of_list_count self batch = Raise ValueError).
Proof.
  intros Hs Hc. unfold _get_batch_matches_of_list_count.
  split; [| split; [intros Hf s'; by apply contains_np_str |
                    split; [apply get_batch_matches_count_total |]]].
  2:{ intros Htm Hq. apply get_batch_matches_count_empty_tm; [done |].
      rewrite quota_np_array. by apply quota_reached_false. }
  intros out n Hrun. apply np_array_lookup in Hs.
  destruct (get_batch_matches_count_lookup _ _ _ _ Hrun) as (_ & Hout & Hn & _).
  destruct (Hout idx _ Hs) as (o & Ho & [->|(Hc' & _)]); simpl in *; [| congruence].
  split; [done |]. split; [intros He; by rewrite (np_str_id s He) in Ho |].
  split; [| done].
  rewrite augmented_positions_elem. intros [_ Hne]. congruence.
Qed.

(** With a quota that is reached at entry nothing is scored and the batch
    is returned as it is. *)
Lemma get_batch_matches_count_no_quota (self : FuzzyMatcher) (batch : list string) :
  (quota self batch <= 0)%Q →
  _get_batch_matches_count self batch = Ok (batch, O).
Proof.
  intros Hq. rewrite get_batch_matches_count_whole. unfold whole_batch_count.
  rewrite for_mini_batch_unfold.
  by replace (quota_reached (quota self batch) 0) with true
    by (symmetry; by apply quota_reached_true).
Qed.

(** C9: the chunked augmenter and the selection algorithm applied to the
    whole batch as a single chunk give the same result: the same
    sequence and the same count, or the same exception.  With a TM that
    has a source, both are the selection rule applied item by item to the
    whole batch, with no chunk skipped. *)
Theorem chunked_as_whole (self : FuzzyMatcher) (batch : list string) :
  _get_batch_matches self batch = whole_batch self batch
  ∧ _get_batch_matches_count self batch = whole_batch_count self batch
  ∧ ((internal_tm self).1 ≠ [] →
     _get_batch_matches_count self batch
     = for_items self (quota self batch) (score_item self <$> batch) 0).
Proof.
  unfold _get_batch_matches, whole_batch.
  rewrite get_batch_matches_count_whole. split; [done |]. split; [done |].
  intros Hne. unfold whole_batch_count. by apply for_mini_batch_scored.
Qed.

(** C2 fails on a TM without sources: when the quota is not reached at
    entry, [np.argmax] raises on the matrix without columns and no
    sequence is returned. *)
Theorem empty_tm_raises (self : FuzzyMatcher) (batch : list string) :
  (internal_tm self).1 = [] →
  (0 < quota self batch)%Q →
  _get_batch_matches self batch = Raise ValueError.
Proof.
  intros Htm Hq. unfold _get_batch_matches.
  rewrite get_batch_matches_count_empty_tm; [done | done |].
  by apply quota_reached_false.
Qed.

(** C3 fails between [chunk_size] and twice [chunk_size]: the batch is
    cut into [len(batch) // chunk_size = 1] section, a single chunk longer
    than [chunk_size], and the scorer is called once on all of it. *)
Theorem chunk_above_chunk_size (self : FuzzyMatcher) (batch : list string) :
  (chunk_size < length batch < 2 * chunk_size)%nat →
  mini_batches_of batch = Ok [batch]
  ∧ (chunk_size < length (rows (cdist batch (internal_tm self).1 (threshold self))))%nat.
Proof.
  intros [Hlo Hhi]. split; [by apply mini_batches_of_single |].
  simpl. by rewrite length_map.
Qed.
End Augmenter.

(** ** The augmenter on concrete inputs *)

Lemma quota_bound_witness :
  1%nat = length (augmented_positions ["hello world"] ["hello world[F]bonjour mondeX"])
  ∧ (inject_Z (Z.of_nat 1)
     < @quota exact_float (matcher_of (1 # 2) hello_tm) string ["hello world"] + 1)%Q
  ∧ (∀ k : Z,
       (@quota exact_float (matcher_of (1 # 2) hello_tm) string ["hello world"]
        == inject_Z k)%Q →
       Z.of_nat 1 ≤ k).
Proof.
  apply (@quota_bound indel_scorer exact_float (matcher_of (1 # 2) hello_tm)
           ["hello world"] ["hello world[F]bonjour mondeX"] 1%nat).
  - split; unfold Qle; simpl; lia.
  - vm_compute. reflexivity.
Defined.

(** C1, as stated, fails: with one item and the ratio 1/2 the cap is 1/2,
    the item is augmented, and the count 1 exceeds the cap. *)
Lemma quota_exceeded :
  (0 <= corpus_ratio (matcher_of (1 # 2) hello_tm) <= 1)%Q
  ∧ @_get_batch_matches_count indel_scorer exact_float
      (matcher_of (1 # 2) hello_tm) ["hello world"]
    = Ok (["hello world[F]bonjour mondeX"], 1%nat)
  ∧ ¬ (inject_Z (Z.of_nat 1)
       <= @quota exact_float (matcher_of (1 # 2) hello_tm) string ["hello world"])%Q.
Proof.
  split; [split; unfold Qle; simpl; lia |].
  split; [vm_compute; reflexivity |].
  unfold Qle. vm_compute. intros Hle. by apply Hle.
Qed.

Lemma fuzzy_selection_witness :
  let self := matcher_of 1 hello_tm in
  let s := "hello world" in
  let o := "hello world[F]bonjour mondeX" in
  (o ≠ s →
     (∃ j source, (internal_tm self).1 !! j = Some source
                  ∧ (threshold self <= @fuzz_ratio indel_scorer s source)%Q)
     ∧ (∀ j score, @row_of indel_scorer self s !! j = Some score → score < 100)
     ∧ first_max (@row_of indel_scorer self s) (argmax_row (@row_of indel_scorer self s))
     ∧ ∃ target,
         (internal_tm self).2 !! argmax_row (@row_of indel_scorer self s) = Some target
         ∧ o = s +:+ fuzzy_token self +:+ target)
  ∧ ((∃ j score, @row_of indel_scorer self s !! j = Some score ∧ 100 ≤ score) → o = s).
Proof.
  apply (@fuzzy_selection indel_scorer exact_float (matcher_of 1 hello_tm)
           ["hello world"] ["hello world[F]bonjour mondeX"] 0%nat).
  - vm_compute. reflexivity.
  - reflexivity.
  - reflexivity.
Defined.

Lemma marked_item_unchanged_witness :
  let self := matcher_of 1 hello_tm in
  let batch := ["foo[F]bar"; "hello world"] in
  (∀ out n,
     @_get_batch_matches_of_list_count indel_scorer exact_float self batch = Ok (out, n) →
     out !! 0%nat = Some (np_str "foo[F]bar")
     ∧ (ends_with_nul "foo[F]bar" = false → out !! 0%nat = Some "foo[F]bar")
     ∧ (0%nat ∉ augmented_positions (np_array batch) out)
     ∧ n = length (augmented_positions (np_array batch) out))
  ∧ (nul_free (fuzzy_token self) = true →
     ∀ s', contains (fuzzy_token self) s' = true →
           contains (fuzzy_token self) (np_str s') = true)
  ∧ ((internal_tm self).1 ≠ [] →
     length (internal_tm self).1 = length (internal_tm self).2 →
     ∃ out n,
       @_get_batch_matches_of_list_count indel_scorer exact_float self batch = Ok (out, n))
  ∧ ((internal_tm self).1 = [] →
     (0 < @quota exact_float self string batch)%Q →
     @_get_batch_matches_of_list_count indel_scorer exact_float self batch
     = Raise ValueError).
Proof.
  apply (@marked_item_unchanged indel_scorer exact_float (matcher_of 1 hello_tm)
           ["foo[F]bar"; "hello world"] 0%nat "foo[F]bar").
  - reflexivity.
  - vm_compute. reflexivity.
Defined.

(** C7, as stated, fails on an item that ends in NUL: the item holds the
    token, and the augmenter returns it without its last character. *)
Lemma marked_item_loses_nul :
  let self := matcher_of 1 hello_tm in
  let s := "foo[F]bar" +:+ NUL in
  contains (fuzzy_token self) s = true
  ∧ @_get_batch_matches_of_list indel_scorer exact_float self [s] = Ok ["foo[F]bar"]
  ∧ "foo[F]bar" ≠ s.
Proof.
  split; [vm_compute; reflexivity |].
  split; [vm_compute; reflexivity | discriminate].
Qed.

(** The TM file [short_tm_lines] loads into a TM without sources, and the
    augmenter then raises on a batch of one item. *)
Lemma empty_tm_raises_witness :
  FuzzyMatcher_init (Some short_tm_lines) (1 # 10) 70 TAB "[F]" 4 70
  = Ok (matcher_of (1 # 10) ([], []))
  ∧ @_get_batch_matches indel_scorer exact_float (matcher_of (1 # 10) ([], []))
      ["hello world"]
    = Raise ValueError.
Proof.
  split; [vm_compute; reflexivity |].
  apply (@empty_tm_raises indel_scorer exact_float (matcher_of (1 # 10) ([], []))
           ["hello world"]).
  - reflexivity.
  - vm_compute. reflexivity.
Defined.

Lemma chunk_above_chunk_size_witness :
  mini_batches_of long_batch = Ok [long_batch]
  ∧ (chunk_size
     < length (rows (@cdist indel_scorer long_batch
                       (internal_tm (matcher_of 1 hello_tm)).1
                       (threshold (matcher_of 1 hello_tm)))))%nat.
Proof.
  apply (@chunk_above_chunk_size indel_scorer (matcher_of 1 hello_tm) long_batch).
  unfold long_batch. rewrite length_replicate. unfold chunk_size. lia.
Defined.

(** ** The configuration *)

Lemma config_lookup (given : gmap string pyval) (name : string) :
  FuzzyMatchConfig given !! name
  = (λ default, from_option id default (given !! name))
      <$> class_namespace FuzzyMatchConfig_body !! name.
Proof.
  unfold FuzzyMatchConfig. rewrite map_lookup_imap.
  by destruct (class_namespace FuzzyMatchConfig_body !! name).
Qed.

(** C4 fails on the code: the second declaration of [fuzzymatch_min_length]
    replaces the first, so that the class has one length option, with the
    default 70, and no [fuzzymatch_max_length]; whatever options are given,
    [_parse_config] raises [AttributeError] when it reads the maximum. *)
Theorem config_max_length_missing (given : gmap string pyval) :
  class_namespace FuzzyMatchConfig_body !! "fuzzymatch_min_length" = Some (PyInt 70)
  ∧ class_namespace FuzzyMatchConfig_body !! "fuzzymatch_max_length" = None
  ∧ FuzzyMatchConfig given !! "fuzzymatch_max_length" = None
  ∧ FuzzyMatchTransform._parse_config (FuzzyMatchConfig given) = Raise AttributeError.
Proof.
  assert (class_namespace FuzzyMatchConfig_body !! "fuzzymatch_max_length" = None)
    as Hmax by (vm_compute; reflexivity).
  split; [vm_compute; reflexivity |]. split; [done |].
  assert (FuzzyMatchConfig given !! "fuzzymatch_max_length" = None) as Hnone
    by (by rewrite config_lookup, Hmax).
  split; [done |].
  unfold FuzzyMatchTransform._parse_config, getattr. rewrite Hnone.
  repeat match goal with
  | |- context [FuzzyMatchConfig given !! ?name] =>
      let Hl := fresh "Hl" in
      destruct (FuzzyMatchConfig given !! name) eqn:Hl; simpl; [| done]
  end.
  done.
Qed.

(** ** The batch adapter *)

Lemma for_each_Forall2 {A B : Type} (f : A → result B) (xs : list A) (ys : list B) :
  for_each f xs = Ok ys → Forall2 (λ x y, f x = Ok y) xs ys.
Proof.
  revert ys. induction xs as [|x xs IH]; intros ys Hrun; simpl in Hrun.
  - injection Hrun as <-. constructor.
  - destruct (f x) as [y|] eqn:Hx; simpl in Hrun; [| done].
    destruct (for_each f xs) as [ys'|]; simpl in Hrun; [| done].
    injection Hrun as <-. constructor; [done | by apply IH].
Qed.

(** The reference scorer gives the empty query 0 against a non-empty
    choice and 100 against the empty one. *)
Lemma indel_empty_query : @empty_query_trivial indel_scorer.
Proof.
  intros score_cutoff choice. unfold cdist_cell. simpl.
  unfold indel_ratio. simpl.
  destruct (String.length choice) as [|n].
  - destruct (Qle_bool score_cutoff (100 # 1)); [right | left; done].
    vm_compute. discriminate.
  - left. destruct (Qle_bool _ _); [| done].
    unfold Qfloor, Qplus. simpl.
    apply Z.div_small. lia.
Qed.

Section Adapter.
Context `{Scorer} `{FloatArith} {X Y : Type}.

Import FuzzyMatchTransform.

(** The string passed for the example at [idx]. *)
Lemma src_segments_lookup (self : FuzzyMatchTransform.t) (batch : list (nat * X * Y))
    (σ : nat → gmap string (list string)) (segments : list string)
    (idx ex : nat) (x : X) (y : Y) (tokens : list string) :
  src_segments self batch σ = Ok segments →
  batch !! idx = Some (ex, x, y) →
  σ ex !! "src" = Some tokens →
  segments !! idx
  = Some (if (fuzzymatch_min_length self <? len (str_join " " tokens))
             && (len (str_join " " tokens) <? fuzzymatch_max_length self)
          then str_join " " tokens else EmptyString).
Proof.
  intros Hrun Hidx Hsrc. apply for_each_Forall2 in Hrun.
  destruct (Forall2_lookup_l _ _ _ _ _ Hrun Hidx) as (seg & -> & Hseg).
  simpl in Hseg. unfold src_segment, getitem_src in Hseg. rewrite Hsrc in Hseg.
  simpl in Hseg. by injection Hseg as <-.
Qed.

(** The augmenter leaves the empty string as it is when the scorer gives
    the empty query nothing but 0 and 100. *)
Lemma get_batch_matches_sentinel (self : FuzzyMatcher) (batch out : list string)
    (idx : nat) :
  empty_query_trivial →
  _get_batch_matches self batch = Ok out →
  batch !! idx = Some EmptyString →
  out !! idx = Some EmptyString.
Proof.
  intros Htriv Hrun Hidx.
  pose proof Hrun as Hrun'. apply get_batch_matches_Ok in Hrun' as [n Hcount].
  destruct (get_batch_matches_count_lookup _ _ _ _ Hcount) as (_ & Hout & _).
  destruct (Hout idx _ Hidx) as (o & Ho & _).
  destruct (get_batch_matches_rewritten _ _ _ _ _ _ Hrun Hidx Ho)
    as [->|(_ & (j & v & Hj & Hv) & Hall & _)]; [done |].
  specialize (Hall _ _ Hj).
  unfold row_of in Hj. rewrite list_lookup_fmap in Hj.
  destruct ((internal_tm self).1 !! j) as [source|]; [| done].
  injection Hj as <-.
  destruct (Htriv (threshold self) source); lia.
Qed.

(** Writing back reaches only the examples of the places whose string is
    not empty. *)
Lemma write_back_frame (batch : list (nat * X * Y)) (fuzzied_src : list string)
    (σ : nat → gmap string (list string)) (ex : nat) :
  (∀ idx x y fuzzied,
     batch !! idx = Some (ex, x, y) → fuzzied_src !! idx = Some fuzzied →
     fuzzied = EmptyString) →
  (write_back batch fuzzied_src σ).2 ex = σ ex.
Proof.
  revert fuzzied_src σ.
  induction batch as [|[[ex' x'] y'] batch IH]; intros fuzzied_src σ Hempty; [done |].
  cbn [write_back]. destruct fuzzied_src as [|fuzzied fuzzied_src]; [done |].
  assert (∀ idx x y f, batch !! idx = Some (ex, x, y) →
                       fuzzied_src !! idx = Some f → f = EmptyString) as Hrest.
  { intros idx x y f Hb Hf. by apply (Hempty (S idx) x y f). }
  destruct (String.eqb fuzzied EmptyString) eqn:Heq; [by apply IH |].
  destruct (str_split " " fuzzied) as [tokens|e]; [| done].
  rewrite IH by done.
  apply fn_lookup_insert_ne. intros ->.
  apply String.eqb_neq in Heq. apply Heq. by apply (Hempty O x' y').
Qed.

(** Writing back assigns to no other field than ["src"]. *)
Lemma write_back_other_fields (batch : list (nat * X * Y)) (fuzzied_src : list string)
    (σ : nat → gmap string (list string)) (ex : nat) (key : string) :
  key ≠ "src" →
  (write_back batch fuzzied_src σ).2 ex !! key = σ ex !! key.
Proof.
  intros Hkey. revert fuzzied_src σ.
  induction batch as [|[[ex' x'] y'] batch IH]; intros fuzzied_src σ; [done |].
  cbn [write_back]. destruct fuzzied_src as [|fuzzied fuzzied_src]; [done |].
  destruct (String.eqb fuzzied EmptyString); [by apply IH |].
  destruct (str_split " " fuzzied) as [tokens|e]; [| done].
  rewrite IH. destruct (decide (ex' = ex)) as [->|Hne].
  - rewrite fn_lookup_insert. by rewrite lookup_insert_ne.
  - by rewrite fn_lookup_insert_ne.
Qed.

(** What [batch_apply] leaves in the store: the store it found, or that
    store written back with the result of the augmenter. *)
Lemma batch_apply_store (self : FuzzyMatchTransform.t) (batch : list (nat * X * Y))
    (σ : nat → gmap string (list string)) :
  (batch_apply self batch σ).2 = σ
  ∨ ∃ segments fuzzied_src,
      src_segments self batch σ = Ok segments
      ∧ _get_batch_matches (matcher self) segments = Ok fuzzied_src
      ∧ (batch_apply self batch σ).2 = (write_back batch fuzzied_src σ).2.
Proof.
  unfold batch_apply.
  destruct (src_segments self batch σ) as [segments|]; [| by left].
  destruct (_get_batch_matches (matcher self) segments) as [fuzzied_src|] eqn:Hrun;
    [| by left].
  destruct (length segments =? length fuzzied_src)%nat; [| by left].
  right. exists segments, fuzzied_src. split; [done |]. split; [done |].
  by destruct (write_back batch fuzzied_src σ) as [[?|?] ?].
Qed.

Lemma for_each_total {A B : Type} (f : A → result B) (xs : list A) :
  Forall (λ x, ∃ y, f x = Ok y) xs → ∃ ys, for_each f xs = Ok ys.
Proof.
  induction 1 as [|x xs [y Hy] _ [ys IH]]; [by eexists |].
  simpl. rewrite Hy, IH. by eexists.
Qed.

Lemma write_back_Ok (batch : list (nat * X * Y)) (fuzzied_src : list string)
    (σ : nat → gmap string (list string)) :
  (length batch ≤ length fuzzied_src)%nat →
  (write_back batch fuzzied_src σ).1 = Ok ().
Proof.
  revert fuzzied_src σ.
  induction batch as [|[[ex x] y] batch IH]; intros fuzzied_src σ Hlen; [done |].
  cbn [write_back]. destruct fuzzied_src as [|fuzzied fuzzied_src]; simpl in Hlen; [lia |].
  destruct (String.eqb fuzzied EmptyString); [apply IH; lia |].
  cbn [str_split]. apply IH. lia.
Qed.

(** [batch_apply] returns the batch when every example has a source field
    and the TM has a source, and a target for every source. *)
Lemma batch_apply_returns (self : FuzzyMatchTransform.t) (batch : list (nat * X * Y))
    (σ : nat → gmap string (list string)) :
  (∀ idx ex x y, batch !! idx = Some (ex, x, y) → is_Some (σ ex !! "src")) →
  (internal_tm (matcher self)).1 ≠ [] →
  length (internal_tm (matcher self)).1 = length (internal_tm (matcher self)).2 →
  (batch_apply self batch σ).1 = Ok batch.
Proof.
  intros Hsrc Hne Hlen. unfold batch_apply.
  destruct (for_each_total (λ item : nat * X * Y, src_segment self (σ item.1.1)) batch)
    as [segments Hseg].
  { apply Forall_forall. intros [[ex x] y] Hin.
    apply list_elem_of_lookup in Hin as [idx Hidx].
    destruct (Hsrc _ _ _ _ Hidx) as [tokens Htok]. simpl.
    unfold src_segment, getitem_src. rewrite Htok. by eexists. }
  unfold src_segments. rewrite Hseg.
  destruct (get_batch_matches_length (matcher self) segments Hne Hlen)
    as (fuzzied_src & -> & Hl & _).
  rewrite Hl, Nat.eqb_refl.
  pose proof (write_back_Ok batch fuzzied_src σ) as Hwb.
  apply for_each_Forall2, Forall2_length in Hseg.
  specialize (Hwb ltac:(lia)).
  destruct (write_back batch fuzzied_src σ) as [[[]|e] σ']; simpl in Hwb; [done | done].
Qed.

(** C10: for an example whose joined source has a length that is not
    strictly between the two bounds, the adapter passes the empty string,
    the augmenter returns the empty string at its place, and the example
    is the same after [batch_apply] as before, all its fields included;
    [batch_apply] assigns to the source field only, and only for a string
    that is not empty. *)
Theorem out_of_bounds_example_untouched (self : FuzzyMatchTransform.t)
    (batch : list (nat * X * Y)) (σ : nat → gmap string (list string))
    (idx ex : nat) (x : X) (y : Y) (tokens : list string) :
  empty_query_trivial →
  batch !! idx = Some (ex, x, y) →
  σ ex !! "src" = Some tokens →
  ¬ (fuzzymatch_min_length self < len (str_join " " tokens)
     < fuzzymatch_max_length self) →
  (∀ segments, src_segments self batch σ = Ok segments →
     segments !! idx = Some EmptyString
     ∧ ∀ fuzzied_src,
         _get_batch_matches (matcher self) segments = Ok fuzzied_src →
         fuzzied_src !! idx = Some EmptyString)
  ∧ (batch_apply self batch σ).2 ex = σ ex
  ∧ (∀ ex' key, key ≠ "src" →
       (batch_apply self batch σ).2 ex' !! key = σ ex' !! key)
  ∧ (∀ ex' fuzzied_src,
       (∀ idx' x' y' fuzzied,
          batch !! idx' = Some (ex', x', y') → fuzzied_src !! idx' = Some fuzzied →
          fuzzied = EmptyString) →
       (write_back batch fuzzied_src σ).2 ex' = σ ex').
Proof.
  intros Htriv Hidx Hsrc Hout.
  assert (∀ segments idx' x' y',
            src_segments self batch σ = Ok segments →
            batch !! idx' = Some (ex, x', y') →
            segments !! idx' = Some EmptyString) as Hsentinel.
  { intros segments idx' x' y' Hseg Hidx'.
    rewrite (src_segments_lookup _ _ _ _ _ _ _ _ _ Hseg Hidx' Hsrc).
    destruct (_ <? _) eqn:E1; [| done].
    destruct (len _ <? _) eqn:E2; [| done].
    exfalso. apply Hout. lia. }
  split; [| split; [| split]].
  - intros segments Hseg. split; [by eapply Hsentinel |].
    intros fuzzied_src Hrun.
    eapply get_batch_matches_sentinel; [done | done |]. by eapply Hsentinel.
  - destruct (batch_apply_store self batch σ)
      as [->|(segments & fuzzied_src & Hseg & Hrun & ->)]; [done |].
    apply write_back_frame. intros idx' x' y' fuzzied Hidx' Hf.
    pose proof (get_batch_matches_sentinel _ _ _ idx' Htriv Hrun
                  (Hsentinel _ _ _ _ Hseg Hidx')) as Hempty.
    congruence.
  - intros ex' key Hkey.
    destruct (batch_apply_store self batch σ)
      as [->|(segments & fuzzied_src & Hseg & Hrun & ->)]; [done |].
    by apply write_back_other_fields.
  - intros ex' fuzzied_src. apply write_back_frame.
Qed.
End Adapter.

Lemma out_of_bounds_example_untouched_witness :
  (∀ segments,
     @FuzzyMatchTransform.src_segments unit unit demo_transform demo_batch demo_store
     = Ok segments →
     segments !! 0%nat = Some EmptyString
     ∧ ∀ fuzzied_src,
         @_get_batch_matches indel_scorer exact_float
           (FuzzyMatchTransform.matcher demo_transform) segments = Ok fuzzied_src →
         fuzzied_src !! 0%nat = Some EmptyString)
  ∧ (@FuzzyMatchTransform.batch_apply indel_scorer exact_float unit unit
       demo_transform demo_batch demo_store).2 0%nat = demo_store 0%nat
  ∧ (∀ ex' key, key ≠ "src" →
       (@FuzzyMatchTransform.batch_apply indel_scorer exact_float unit unit
          demo_transform demo_batch demo_store).2 ex' !! key = demo_store ex' !! key)
  ∧ (∀ ex' fuzzied_src,
       (∀ idx' x' y' fuzzied,
          demo_batch !! idx' = Some (ex', x', y') → fuzzied_src !! idx' = Some fuzzied →
          fuzzied = EmptyString) →
       (FuzzyMatchTransform.write_back demo_batch fuzzied_src demo_store).2 ex'
       = demo_store ex').
Proof.
  apply (@out_of_bounds_example_untouched indel_scorer exact_float unit unit
           demo_transform demo_batch demo_store 0%nat 0%nat () () ["hi"]).
  - exact indel_empty_query.
  - reflexivity.
  - vm_compute. reflexivity.
  - vm_compute. intros [Hlo _]. discriminate Hlo.
Defined.

(** ** The scenarios of the specification, run with the reference scorer *)

Example scenario_near_match :
  @_get_batch_matches indel_scorer exact_float (matcher_of 1 hello_tm) ["hello world"]
  = Ok ["hello world[F]bonjour mondeX"].
Proof. vm_compute. reflexivity. Qed.

Example scenario_exact_match :
  @_get_batch_matches indel_scorer exact_float
    (matcher_of 1 (["hello world"], ["bonjour monde"])) ["hello world"]
  = Ok ["hello world"].
Proof. vm_compute. reflexivity. Qed.

Example scenario_zero_ratio :
  @_get_batch_matches indel_scorer exact_float (matcher_of 0 hello_tm) ["a"; "b"; "c"]
  = Ok ["a"; "b"; "c"].
Proof. vm_compute. reflexivity. Qed.

Example scenario_already_marked :
  @_get_batch_matches_count indel_scorer exact_float (matcher_of 1 hello_tm) ["foo[F]bar"]
  = Ok (["foo[F]bar"], O).
Proof. vm_compute. reflexivity. Qed.

Example scenario_quota_of_two :
  @_get_batch_matches_count indel_scorer exact_float (matcher_of (2 # 10) hello_tm)
    (replicate 10 "hello world")
  = Ok (replicate 2 "hello world[F]bonjour mondeX" ++ replicate 8 "hello world", 2%nat).
Proof. vm_compute. reflexivity. Qed.

(** * Further properties *)

(** ** The loader *)

Lemma create_tm_loop_acc delimiter min_length max_length pairs src tgt :
  _create_tm_loop delimiter min_length max_length pairs src tgt
  = ('(s, t) ← _create_tm_loop delimiter min_length max_length pairs [] [];
     Ok (src ++ s, tgt ++ t)).
Proof.
  revert src tgt. induction pairs as [|line pairs IH]; intros src tgt.
  - simpl. by rewrite !app_nil_r.
  - cbn [_create_tm_loop].
    destruct (str_split delimiter line) as [fs|e]; simpl; [| done].
    destruct fs as [|source [|target [|x fs]]]; try done.
    destruct (_ || _); [apply IH |].
    rewrite IH. rewrite (IH [strip source] [strip target]).
    destruct (_create_tm_loop delimiter min_length max_length pairs [] [])
      as [[s t]|]; simpl; [| done].
    by rewrite <- !app_assoc.
Qed.

Lemma create_tm_loop_app delimiter min_length max_length pairs1 pairs2 src tgt :
  _create_tm_loop delimiter min_length max_length (pairs1 ++ pairs2) src tgt
  = ('(s, t) ← _create_tm_loop delimiter min_length max_length pairs1 src tgt;
     _create_tm_loop delimiter min_length max_length pairs2 s t).
Proof.
  revert src tgt. induction pairs1 as [|line pairs1 IH]; intros src tgt; [done |].
  cbn [app _create_tm_loop].
  destruct (str_split delimiter line) as [fs|e]; simpl; [| done].
  destruct fs as [|source [|target [|x fs]]]; try done.
  destruct (_ || _); apply IH.
Qed.

(** X1: loading goes line by line: for two lists of lines, as [readlines]
    returns them, the TM loaded from the lines of the first followed by the
    lines of the second is the TM loaded from the first followed by the TM
    loaded from the second, and the load raises as soon as the load of one
    of the two lists raises. *)
Theorem create_tm_concatenation (delimiter : string) (min_length max_length : Z)
    (pairs1 pairs2 : list string) :
  _create_tm delimiter min_length max_length (Some (pairs1 ++ pairs2))
  = ('(src1, tgt1) ← _create_tm delimiter min_length max_length (Some pairs1);
     '(src2, tgt2) ← _create_tm delimiter min_length max_length (Some pairs2);
     Ok (src1 ++ src2, tgt1 ++ tgt2)).
Proof.
  simpl. rewrite create_tm_loop_app.
  destruct (_create_tm_loop delimiter min_length max_length pairs1 [] [])
    as [[s1 t1]|]; simpl; [| done].
  apply create_tm_loop_acc.
Qed.

Lemma split_go_no_sep (sep s : string) :
  contains sep s = false → split_go sep s 0 = [s].
Proof.
  induction s as [|c s IH]; [done |].
  cbn [contains split_go]. intros Hc. apply orb_false_iff in Hc as [Hp Hs].
  rewrite Hp, (IH Hs). done.
Qed.

(** X2: a line in which the delimiter does not occur, a blank line for
    one, aborts the load. *)
Theorem create_tm_line_without_delimiter (delimiter : string)
    (min_length max_length : Z) (pairs : list string) (line : string) :
  line ∈ pairs →
  contains delimiter line = false →
  _create_tm delimiter min_length max_length (Some pairs) = Raise ValueError.
Proof.
  intros Hin Hc. apply create_tm_loop_error. intros Hall.
  rewrite Forall_forall in Hall. destruct (Hall line Hin) as (source & target & Hs).
  unfold str_split in Hs. rewrite split_go_no_sep in Hs by done.
  by destruct delimiter.
Qed.

Lemma create_tm_line_without_delimiter_witness :
  _create_tm TAB 4 70 (Some blank_line_file) = Raise ValueError.
Proof.
  apply (create_tm_line_without_delimiter TAB 4 70 blank_line_file NL).
  - unfold blank_line_file. set_solver.
  - vm_compute. reflexivity.
Defined.

Lemma strip_length (s : string) : (String.length (strip s) ≤ String.length s)%nat.
Proof.
  destruct (strip_spec s) as (l & r & Hs & _).
  rewrite Hs at 2. rewrite !string_app_length. lia.
Qed.

(** X3: a loaded TM has at most one entry per line of the file, and none
    of its sources is longer than [max_length]. *)
Theorem create_tm_size (delimiter : string) (min_length max_length : Z)
    (pairs src tgt : list string) :
  _create_tm delimiter min_length max_length (Some pairs) = Ok (src, tgt) →
  (length src ≤ length pairs)%nat
  ∧ Forall (λ source, len source ≤ max_length) src.
Proof.
  intros Hload.
  destruct (create_tm_cases delimiter min_length max_length pairs)
    as [[Hall _]|[_ Herr]]; [| congruence].
  destruct (two_fields_Forall2 _ _ Hall) as [fields HF].
  simpl in Hload. rewrite (create_tm_loop_ok _ _ _ _ _ [] [] HF) in Hload.
  injection Hload as <- <-. simpl. split.
  - rewrite length_fmap, (Forall2_length _ _ _ HF). apply length_filter.
  - apply Forall_fmap, Forall_forall. intros f Hf. simpl.
    apply list_elem_of_filter in Hf as [[_ Hmax] _].
    pose proof (strip_length f.1). unfold len in *. lia.
Qed.

Lemma create_tm_size_witness :
  (length ["hello worlX"; "ab"] ≤ length tm_lines)%nat
  ∧ Forall (λ source, len source ≤ 70) ["hello worlX"; "ab"].
Proof.
  apply (create_tm_size TAB 4 70 tm_lines ["hello worlX"; "ab"] ["bonjour mondeX"; "cd"]).
  vm_compute. reflexivity.
Defined.

(** ** The pagination *)

Lemma sub_arys_lengths {A : Type} (sizes : list nat) (ary : list A) :
  (sum_list sizes ≤ length ary)%nat → map length (sub_arys sizes ary) = sizes.
Proof.
  revert ary. induction sizes as [|k sizes IH]; intros ary Hsum; simpl in *; [done |].
  rewrite length_take, IH by (rewrite length_drop; lia). f_equal. lia.
Qed.

Lemma array_split_sizes {A : Type} (ary : list A) (Nsections : nat) :
  Nsections ≠ O →
  ∃ chunks, array_split ary Nsections = Ok chunks
    ∧ map length chunks
      = replicate (length ary mod Nsections)%nat (S (length ary / Nsections)%nat)
        ++ replicate (Nsections - length ary mod Nsections)%nat
             (length ary / Nsections)%nat.
Proof.
  intros Hn. unfold array_split. destruct Nsections as [|n]; [done |].
  set (N := S n) in *. eexists. split; [done |].
  pose proof (Nat.div_mod_eq (length ary) N) as Hdm.
  pose proof (Nat.mod_upper_bound (length ary) N Hn) as Hmod.
  apply sub_arys_lengths.
  rewrite sum_list_with_app, !sum_list_replicate. nia.
Qed.

(** X4: the pagination never fails; its chunks, in order, make up the
    batch; a batch of at most [chunk_size] items is one chunk, and a longer
    one is cut into [len(batch) // chunk_size] chunks that each hold at
    least [chunk_size] and fewer than twice [chunk_size] items. *)
Theorem mini_batches_layout (batch : list string) :
  ∃ chunks, mini_batches_of batch = Ok chunks
    ∧ concat chunks = batch
    ∧ ((length batch ≤ chunk_size)%nat → chunks = [batch])
    ∧ ((chunk_size < length batch)%nat →
       length chunks = (length batch / chunk_size)%nat
       ∧ Forall (λ chunk, chunk_size ≤ length chunk < 2 * chunk_size)%nat chunks).
Proof.
  destruct (mini_batches_of_ok batch) as (chunks & Hsplit & Hcat & _ & Hup).
  exists chunks. split; [done |]. split; [done |]. split.
  - intros Hle. pose proof chunk_size_ge.
    rewrite mini_batches_of_single in Hsplit by lia. congruence.
  - intros Hlt. unfold mini_batches_of in Hsplit.
    replace (chunk_size <? length batch)%nat with true in Hsplit
      by (symmetry; by apply Nat.ltb_lt).
    pose proof chunk_size_ge as Hcs.
    assert (1 ≤ length batch / chunk_size)%nat as Hn
      by (apply Nat.div_le_lower_bound; lia).
    destruct (array_split_sizes batch (length batch / chunk_size)%nat ltac:(lia))
      as (chunks' & Hsplit' & Hsizes).
    assert (chunks' = chunks) as -> by congruence.
    split.
    + apply (f_equal length) in Hsizes.
      rewrite length_map, length_app, !length_replicate in Hsizes.
      pose proof (Nat.mod_upper_bound (length batch) (length batch / chunk_size)
                    ltac:(lia)).
      lia.
    + assert (chunk_size ≤ length batch / (length batch / chunk_size))%nat as Hlow.
      { apply Nat.div_le_lower_bound; [lia |].
        rewrite Nat.mul_comm. apply Nat.Div0.mul_div_le. }
      assert (Forall (λ k, chunk_size ≤ k)%nat (map length chunks)) as Hall.
      { rewrite Hsizes. apply Forall_app. split; apply Forall_replicate; lia. }
      rewrite Forall_fmap in Hall.
      rewrite Forall_forall in Hall, Hup. apply Forall_forall.
      intros chunk Hin. specialize (Hall chunk Hin). specialize (Hup chunk Hin).
      simpl in Hall. lia.
Qed.

(** ** The order in which the quota is spent *)

Lemma contains_app_r (sub a b : string) : contains sub (a +:+ sub +:+ b) = true.
Proof.
  induction a as [|c a IH].
  - rewrite string_app_nil_l. destruct (sub +:+ b) eqn:E; cbn [contains];
      rewrite <- E, prefix_app; done.
  - rewrite string_app_cons. cbn [contains]. rewrite IH. apply orb_true_r.
Qed.

Lemma create_tm_aligned delimiter min_length max_length tm_file src tgt :
  _create_tm delimiter min_length max_length tm_file = Ok (src, tgt) →
  length src = length tgt.
Proof.
  destruct tm_file as [pairs|]; [| done]. intros Hload.
  destruct (create_tm_cases delimiter min_length max_length pairs)
    as [[Hall _]|[_ Herr]]; [| congruence].
  destruct (two_fields_Forall2 _ _ Hall) as [fields HF].
  simpl in Hload. rewrite (create_tm_loop_ok _ _ _ _ _ [] [] HF) in Hload.
  injection Hload as <- <-. simpl. by rewrite !length_fmap.
Qed.

Section Spending.
Context `{Scorer} `{FloatArith}.

(** One turn of the loop: the item is no candidate and is kept, or it is a
    candidate met with the quota reached, where the loop stops, or it is a
    candidate that is rewritten and counted. *)
Lemma for_items_cons_inv (self : FuzzyMatcher) (cap : Q) (it : scored)
    (items : list scored) (fuzzy_count : nat) (out : list string) (n : nat) :
  for_items self cap (it :: items) fuzzy_count = Ok (out, n) →
  (scored_candidate self it = false
   ∧ ∃ plist, for_items self cap items fuzzy_count = Ok (plist, n)
              ∧ out = it.1.1.1 :: plist)
  ∨ (scored_candidate self it = true
     ∧ quota_reached cap fuzzy_count = true
     ∧ n = fuzzy_count
     ∧ out = it.1.1.1 :: map (λ it : scored, it.1.1.1) items)
  ∨ (scored_candidate self it = true
     ∧ quota_reached cap fuzzy_count = false
     ∧ ∃ target plist,
         (internal_tm self).2 !! it.2 = Some target
         ∧ for_items self cap items (S fuzzy_count) = Ok (plist, n)
         ∧ out = (it.1.1.1 +:+ fuzzy_token self +:+ target) :: plist).
Proof.
  destruct it as [[[s matched] row] best]. unfold scored_candidate.
  cbn [for_items fst snd]. intros Hrun.
  assert (('(plist, n) ← for_items self cap items fuzzy_count; Ok (s :: plist, n))
          = Ok (out, n) →
          ∃ plist, for_items self cap items fuzzy_count = Ok (plist, n)
                   ∧ out = s :: plist) as Hkeep.
  { intros Hk.
    destruct (for_items self cap items fuzzy_count) as [[p m]|]; simpl in Hk; [| done].
    injection Hk as <- <-. by exists p. }
  destruct (contains _ s) eqn:Hc; [left; split; [done | by apply Hkeep] |].
  destruct matched; simpl in Hrun;
    [| left; split; [done | by apply Hkeep]].
  destruct (py_index row best) as [score|] eqn:Hrow; simpl in Hrun; [| done].
  apply py_index_Ok in Hrow. rewrite Hrow. simpl.
  destruct (score <? 100) eqn:Hs; simpl in Hrun;
    [| left; split; [done | by apply Hkeep]].
  right. destruct (quota_reached cap fuzzy_count) eqn:Hq.
  - left. by injection Hrun as <- <-.
  - right. split; [done |]. split; [done |].
    destruct (py_index _ best) as [target|] eqn:Ht; simpl in Hrun; [| done].
    apply py_index_Ok in Ht.
    destruct (for_items self cap items (S fuzzy_count)) as [[p m]|] eqn:E;
      simpl in Hrun; [| done].
    injection Hrun as <- <-. by exists target, p.
Qed.

(** The counter grows by at most the number of candidates, and when it
    grows by less the quota is reached. *)
Lemma for_items_candidates (self : FuzzyMatcher) (cap : Q) (items : list scored)
    (fuzzy_count : nat) (out : list string) (n : nat) :
  for_items self cap items fuzzy_count = Ok (out, n) →
  (n ≤ fuzzy_count
       + length (filter (λ it, scored_candidate self it = true) items))%nat
  ∧ ((n < fuzzy_count
          + length (filter (λ it, scored_candidate self it = true) items))%nat →
     quota_reached cap n = true).
Proof.
  revert fuzzy_count out n.
  induction items as [|it items IH]; intros fc out n Hrun.
  - injection Hrun as <- <-. simpl. lia.
  - rewrite filter_cons.
    destruct (for_items_cons_inv _ _ _ _ _ _ _ Hrun)
      as [(Hno & p & Hp & ->)|[(Hyes & Hq & -> & ->)|(Hyes & Hq & t & p & _ & Hp & ->)]].
    + rewrite decide_False by congruence. apply (IH _ _ _ Hp).
    + rewrite decide_True by done. simpl. split; [lia | done].
    + rewrite decide_True by done. simpl.
      destruct (IH _ _ _ Hp) as [Hle Hlt]. split; [lia |]. intros Hn. apply Hlt. lia.
Qed.

(** A candidate that is left as it is was met with the quota reached:
    from there on nothing is rewritten. *)
Lemma for_items_order (self : FuzzyMatcher) (cap : Q) (items : list scored)
    (fuzzy_count : nat) (out : list string) (n : nat) (i : nat) (it : scored) :
  for_items self cap items fuzzy_count = Ok (out, n) →
  items !! i = Some it →
  scored_candidate self it = true →
  out !! i = Some it.1.1.1 →
  quota_reached cap n = true
  ∧ ∀ j, (i ≤ j)%nat → out !! j = (λ it : scored, it.1.1.1) <$> items !! j.
Proof.
  revert fuzzy_count out n i.
  induction items as [|it0 items IH]; intros fc out n i Hrun Hi Hcand Hout; [done |].
  destruct (for_items_cons_inv _ _ _ _ _ _ _ Hrun)
    as [(Hno & p & Hp & ->)|[(Hyes & Hq & -> & ->)|(Hyes & Hq & t & p & Ht & Hp & ->)]].
  - destruct i as [|i]; simpl in Hi, Hout; [congruence |].
    destruct (IH _ _ _ _ Hp Hi Hcand Hout) as [Hreached Hrest].
    split; [done |]. intros [|j] Hj; [lia |]. simpl. apply Hrest. lia.
  - split; [done |]. intros j _.
    change (it0.1.1.1 :: map (λ it : scored, it.1.1.1) items)
      with ((λ it : scored, it.1.1.1) <$> (it0 :: items)).
    by rewrite list_lookup_fmap.
  - destruct i as [|i]; simpl in Hi, Hout.
    + injection Hi as ->. injection Hout as Hout. exfalso.
      unfold scored_candidate in Hcand.
      apply andb_true_iff in Hcand as [Hcand _].
      apply andb_true_iff in Hcand as [Hcand _].
      apply negb_true_iff in Hcand. by eapply augmented_ne.
    + destruct (IH _ _ _ _ Hp Hi Hcand Hout) as [Hreached Hrest].
      split; [done |]. intros [|j] Hj; [lia |]. simpl. apply Hrest. lia.
Qed.

(** X5: the quota goes to the first candidates of the batch.  When an
    item that passes the selection rule is returned as it is, the count has
    reached the cap and no later item is rewritten either. *)
Theorem augmentation_first_come (self : FuzzyMatcher) (batch out : list string)
    (n idx : nat) (s : string) :
  _get_batch_matches_count self batch = Ok (out, n) →
  batch !! idx = Some s →
  fuzzy_candidate self s = true →
  out !! idx = Some s →
  (quota self batch <= inject_Z (Z.of_nat n))%Q
  ∧ ∀ j, (idx ≤ j)%nat → out !! j = batch !! j.
Proof.
  intros Hrun Hs Hcand Hout. apply get_batch_matches_count_items in Hrun.
  assert ((score_item self <$> batch) !! idx = Some (score_item self s)) as Hit
    by (by rewrite list_lookup_fmap, Hs).
  destruct (for_items_order _ _ _ _ _ _ _ _ Hrun Hit Hcand Hout) as [Hq Hrest].
  split; [by apply quota_reached_true |].
  intros j Hj. rewrite (Hrest j Hj), list_lookup_fmap.
  by destruct (batch !! j).
Qed.

(** X6: the augmenter rewrites as many items as the quota allows: never
    more items than pass the selection rule, and fewer of them only when
    the count has reached the cap. *)
Theorem quota_filled (self : FuzzyMatcher) (batch out : list string) (n : nat) :
  _get_batch_matches_count self batch = Ok (out, n) →
  (n ≤ length (filter (λ s, fuzzy_candidate self s = true) batch))%nat
  ∧ ((n < length (filter (λ s, fuzzy_candidate self s = true) batch))%nat →
     (quota self batch <= inject_Z (Z.of_nat n))%Q).
Proof.
  intros Hrun. apply get_batch_matches_count_items, for_items_candidates in Hrun.
  rewrite filter_fmap_pre, length_fmap in Hrun. simpl in Hrun.
  destruct Hrun as [Hle Hlt]. split; [done |].
  intros Hn. apply quota_reached_true. by apply Hlt.
Qed.

(** X7: a second pass never rewrites what a first pass rewrote.  Every
    item rewritten by the augmenter contains the token, and any later call
    with the same token, when the token has no NUL character, returns it
    without its trailing NUL characters and otherwise as it is. *)
Theorem second_pass_keeps_rewritten (self self' : FuzzyMatcher)
    (batch out out' : list string) (idx : nat) (s o : string) :
  fuzzy_token self' = fuzzy_token self →
  nul_free (fuzzy_token self) = true →
  _get_batch_matches_of_list self batch = Ok out →
  _get_batch_matches_of_list self' out = Ok out' →
  batch !! idx = Some s →
  out !! idx = Some o →
  o ≠ np_str s →
  contains (fuzzy_token self) o = true
  ∧ out' !! idx = Some (np_str o)
  ∧ (ends_with_nul o = false → out' !! idx = Some o).
Proof.
  intros Htoken Hfree Hrun Hrun' Hs Ho Hne.
  apply get_batch_matches_of_list_Ok in Hrun, Hrun'.
  apply np_array_lookup in Hs.
  destruct (get_batch_matches_rewritten _ _ _ _ _ _ Hrun Hs Ho)
    as [->|(_ & _ & _ & _ & target & _ & ->)]; [done |].
  assert (contains (fuzzy_token self) (np_str s +:+ fuzzy_token self +:+ target) = true)
    as Hc by apply contains_app_r.
  split; [done |].
  apply (contains_np_str _ _ Hfree) in Hc. apply np_array_lookup in Ho.
  apply get_batch_matches_Ok in Hrun' as [n' Hcount].
  destruct (get_batch_matches_count_lookup _ _ _ _ Hcount) as (_ & Hout & _).
  destruct (Hout idx _ Ho) as (o' & Ho' & [->|(Hc' & _)]).
  - split; [done |]. intros He. by rewrite (np_str_id _ He) in Ho'.
  - rewrite Htoken in Hc'. congruence.
Qed.

Lemma no_quota_passthrough_aux (self : FuzzyMatcher) (batch : list string) :
  (quota self batch <= inject_Z (Z.of_nat 0))%Q →
  _get_batch_matches self batch = Ok batch
  ∧ _get_batch_matches_count self batch = Ok (batch, O).
Proof.
  intros Hq. unfold _get_batch_matches.
  by rewrite get_batch_matches_count_no_quota.
Qed.

(** X8: with a cap of zero or less nothing is scored: every item is
    returned without its trailing NUL characters and otherwise as it is,
    so the batch is returned as it is when no item ends in NUL, and the
    count is zero, whatever the TM, a TM without sources included. *)
Theorem no_quota_passthrough (self : FuzzyMatcher) (batch : list string) :
  (quota self batch <= 0)%Q →
  _get_batch_matches_of_list self batch = Ok (np_array batch)
  ∧ _get_batch_matches_of_list_count self batch = Ok (np_array batch, O)
  ∧ (Forall (λ s, ends_with_nul s = false) batch →
     _get_batch_matches_of_list self batch = Ok batch).
Proof.
  intros Hq. rewrite <- quota_np_array in Hq.
  unfold _get_batch_matches_of_list, _get_batch_matches_of_list_count.
  rewrite get_batch_matches_count_no_quota by done.
  split; [done |]. split; [done |]. intros Hb. by rewrite np_array_id.
Qed.

(** X9: on a TM that has a source, and a target for every source, the
    augmenter returns a sequence of the length of the batch whose item
    [idx] is item [idx] of the batch without its trailing NUL characters,
    as it is or followed by the token and a target of the TM. *)
Theorem length_and_order (self : FuzzyMatcher) (batch : list string) :
  (internal_tm self).1 ≠ [] →
  length (internal_tm self).1 = length (internal_tm self).2 →
  ∃ out, _get_batch_matches_of_list self batch = Ok out
    ∧ length out = length batch
    ∧ ∀ idx s, batch !! idx = Some s →
        ∃ o, out !! idx = Some o
          ∧ (o = np_str s
             ∨ ∃ target, target ∈ (internal_tm self).2
                         ∧ o = np_str s +:+ fuzzy_token self +:+ target).
Proof.
  intros Hne Hlen.
  destruct (get_batch_matches_length self (np_array batch) Hne Hlen)
    as (out & Hrun & Hl & Hout).
  exists out. split; [done |]. split; [by rewrite Hl, np_array_length |].
  intros idx s Hs. by apply Hout, np_array_lookup.
Qed.

(** X10: a matcher built by [FuzzyMatcher.__init__] has as many targets
    as sources, and its augmenter either returns a sequence of the length
    of the batch or raises [ValueError]; it raises only when the TM came
    out without entries and the cap is positive. *)
Theorem loaded_matcher_runs (tm_file : option (list string)) (ratio cutoff : Q)
    (delimiter token : string) (min_length max_length : Z)
    (self : FuzzyMatcher) (batch : list string) :
  FuzzyMatcher_init tm_file ratio cutoff delimiter token min_length max_length
  = Ok self →
  length (internal_tm self).1 = length (internal_tm self).2
  ∧ match _get_batch_matches self batch with
    | Ok out => length out = length batch
    | Raise e =>
        e = ValueError ∧ (internal_tm self).1 = [] ∧ (0 < quota self batch)%Q
    end.
Proof.
  unfold FuzzyMatcher_init. intros Hinit.
  destruct (_create_tm delimiter min_length max_length tm_file)
    as [[src tgt]|] eqn:Hload; simpl in Hinit; [| done].
  injection Hinit as <-. simpl.
  pose proof (create_tm_aligned _ _ _ _ _ _ Hload) as Hlen.
  split; [done |].
  set (self := {| threshold := cutoff; corpus_ratio := ratio; tm_delimiter := delimiter;
                  fuzzy_token := token; tm_unit_min_length := min_length;
                  tm_unit_max_length := max_length; internal_tm := (src, tgt) |}).
  destruct src as [|source src].
  - destruct (quota_reached (quota self batch) 0) eqn:Hq.
    + apply quota_reached_true in Hq.
      destruct (no_quota_passthrough_aux self batch Hq) as [-> _]. done.
    + unfold _get_batch_matches.
      rewrite get_batch_matches_count_empty_tm by done. simpl.
      split; [done |]. split; [done |]. by apply quota_reached_false in Hq.
  - destruct (get_batch_matches_length self batch ltac:(done) Hlen)
      as (out & -> & Hl & _). done.
Qed.
End Spending.

(** ** Joining and splitting the source tokens *)



Section AdapterMore.
Context `{Scorer} `{FloatArith} {X Y : Type}.

Import FuzzyMatchTransform.

Lemma for_each_raise {A B : Type} (f : A → result B) (xs : list A) (x : A) (e : exn) :
  (∀ x' e', f x' = Raise e' → e' = e) →
  x ∈ xs → f x = Raise e → for_each f xs = Raise e.
Proof.
  intros Honly Hin Hx. induction xs as [|x0 xs IH]; [by apply elem_of_nil in Hin |].
  simpl. destruct (f x0) as [y0|e0] eqn:Hx0; simpl.
  - apply elem_of_cons in Hin as [->|Hin]; [congruence |].
    by rewrite (IH Hin).
  - by rewrite (Honly _ _ Hx0).
Qed.



(** X11: an example without a source field makes [batch_apply] raise
    [KeyError] before anything is written: the store is left as it was. *)
Theorem batch_apply_missing_src (self : FuzzyMatchTransform.t)
    (batch : list (nat * X * Y)) (σ : nat → gmap string (list string))
    (idx ex : nat) (x : X) (y : Y) :
  batch !! idx = Some (ex, x, y) →
  σ ex !! "src" = None →
  batch_apply self batch σ = (Raise KeyError, σ).
Proof.
  intros Hidx Hsrc. unfold batch_apply, src_segments.
  rewrite (for_each_raise _ batch (ex, x, y) KeyError); [done | | |].
  - intros [[ex' x'] y'] e. simpl. unfold src_segment, getitem_src.
    destruct (σ ex' !! "src"); simpl; congruence.
  - by eapply list_elem_of_lookup_2.
  - simpl. unfold src_segment, getitem_src. by rewrite Hsrc.
Qed.

(** X12: [batch_apply] returns the batch it was given when every example
    has a source field and the TM has a source, and a target for every
    source. *)
Theorem batch_apply_returns_batch (self : FuzzyMatchTransform.t)
    (batch : list (nat * X * Y)) (σ : nat → gmap string (list string)) :
  (∀ idx ex x y, batch !! idx = Some (ex, x, y) → is_Some (σ ex !! "src")) →
  (internal_tm (matcher self)).1 ≠ [] →
  length (internal_tm (matcher self)).1 = length (internal_tm (matcher self)).2 →
  (batch_apply self batch σ).1 = Ok batch.
Proof. apply batch_apply_returns. Qed.


End AdapterMore.

(** ** The specials and the logger *)

Lemma init_logger_calls_app can_open calls1 calls2 eole :
  init_logger_calls can_open (calls1 ++ calls2) eole
  = init_logger_calls can_open calls2 (init_logger_calls can_open calls1 eole).
Proof.
  revert eole. induction calls1 as [|[[[f fl] r] l] calls1 IH]; intros eole; [done |].
  simpl. apply IH.
Qed.

(** X16: handlers do not pile up.  After any calls of [init_logger], one
    at least, whatever the logger held before and whether or not a log
    file could be opened, the logger has the level of the last call and
    its handlers are one console handler followed by at most one file
    handler. *)
Theorem init_logger_handlers (can_open : string → bool)
    (calls : list (option string * Z * bool * Z)) (eole : Logging.logger)
    (log_file : option string) (log_file_level : Z) (rotate : bool) (log_level : Z) :
  last calls = Some (log_file, log_file_level, rotate, log_level) →
  Logging.level (init_logger_calls can_open calls eole) = log_level
  ∧ ∃ file_handlers,
      Logging.handlers (init_logger_calls can_open calls eole)
      = console_handler :: file_handlers
      ∧ (length file_handlers ≤ 1)%nat
      ∧ Forall (λ h, Logging.kind h ≠ Logging.StreamHandler
                     ∧ Logging.hlevel h = log_file_level
                     ∧ Logging.wants_file log_file ≠ None) file_handlers.
Proof.
  intros Hlast. apply last_Some in Hlast as [calls' ->].
  rewrite init_logger_calls_app. simpl.
  generalize (init_logger_calls can_open calls' eole). intros eole'.
  unfold Logging.init_logger.
  destruct (Logging.wants_file log_file) as [path|] eqn:Hfile; simpl.
  - destruct (can_open path); simpl.
    + split; [done |]. eexists. split; [done |]. split; [simpl; lia |].
      constructor; [| constructor]. simpl. by destruct rotate.
    + split; [done |]. exists []. split; [done |]. split; [simpl; lia | constructor].
  - split; [done |]. exists []. split; [done |]. split; [simpl; lia | constructor].
Qed.

Lemma init_logger_handlers_witness :
  let calls := [ (Some "run.log", 10, true, 20); (None, 0, false, 30);
                 (Some "eole.log", 10, false, 20) ] in
  Logging.level (init_logger_calls (λ _, true) calls logger_with_old_handlers) = 20
  ∧ ∃ file_handlers,
      Logging.handlers (init_logger_calls (λ _, true) calls logger_with_old_handlers)
      = console_handler :: file_handlers
      ∧ (length file_handlers ≤ 1)%nat
      ∧ Forall (λ h, Logging.kind h ≠ Logging.StreamHandler
                     ∧ Logging.hlevel h = 10
                     ∧ Logging.wants_file (Some "eole.log") ≠ None) file_handlers.
Proof.
  apply (init_logger_handlers (λ _, true)
           [ (Some "run.log", 10, true, 20); (None, 0, false, 30);
             (Some "eole.log", 10, false, 20) ]
           logger_with_old_handlers (Some "eole.log") 10 false 20).
  reflexivity.
Defined.

(** ** The further properties on concrete inputs *)

Lemma augmentation_first_come_witness :
  let self := matcher_of (1 # 2) hello_tm in
  let batch := ["hello world"; "hello world"] in
  let out := ["hello world[F]bonjour mondeX"; "hello world"] in
  (@quota exact_float self string batch <= inject_Z (Z.of_nat 1))%Q
  ∧ ∀ j, (1 ≤ j)%nat → out !! j = batch !! j.
Proof.
  apply (@augmentation_first_come indel_scorer exact_float (matcher_of (1 # 2) hello_tm)
           ["hello world"; "hello world"]
           ["hello world[F]bonjour mondeX"; "hello world"] 1%nat 1%nat "hello world").
  - vm_compute. reflexivity.
  - reflexivity.
  - vm_compute. reflexivity.
  - reflexivity.
Defined.

Lemma quota_filled_witness :
  let self := matcher_of (1 # 2) hello_tm in
  let batch := ["hello world"; "hello world"] in
  (1 ≤ length (filter (λ s, @fuzzy_candidate indel_scorer self s = true) batch))%nat
  ∧ ((1 < length (filter (λ s, @fuzzy_candidate indel_scorer self s = true) batch))%nat →
     (@quota exact_float self string batch <= inject_Z (Z.of_nat 1))%Q).
Proof.
  apply (@quota_filled indel_scorer exact_float (matcher_of (1 # 2) hello_tm)
           ["hello world"; "hello world"]
           ["hello world[F]bonjour mondeX"; "hello world"] 1%nat).
  vm_compute. reflexivity.
Defined.

Lemma second_pass_keeps_rewritten_witness :
  contains (fuzzy_token (matcher_of 1 hello_tm)) "hello world[F]bonjour mondeX" = true
  ∧ ["hello world[F]bonjour mondeX"] !! 0%nat
    = Some (np_str "hello world[F]bonjour mondeX")
  ∧ (ends_with_nul "hello world[F]bonjour mondeX" = false →
     ["hello world[F]bonjour mondeX"] !! 0%nat = Some "hello world[F]bonjour mondeX").
Proof.
  apply (@second_pass_keeps_rewritten indel_scorer exact_float
           (matcher_of 1 hello_tm) (matcher_of 1 hello_tm)
           ["hello world" +:+ NUL] ["hello world[F]bonjour mondeX"]
           ["hello world[F]bonjour mondeX"] 0%nat ("hello world" +:+ NUL)).
  - reflexivity.
  - reflexivity.
  - vm_compute. reflexivity.
  - vm_compute. reflexivity.
  - reflexivity.
  - reflexivity.
  - discriminate.
Defined.

Lemma no_quota_passthrough_witness :
  let self := matcher_of 0 ([], []) in
  let batch := ["a"; "b" +:+ NUL; "c"] in
  @_get_batch_matches_of_list indel_scorer exact_float self batch = Ok (np_array batch)
  ∧ @_get_batch_matches_of_list_count indel_scorer exact_float self batch
    = Ok (np_array batch, O)
  ∧ (Forall (λ s, ends_with_nul s = false) batch →
     @_get_batch_matches_of_list indel_scorer exact_float self batch = Ok batch).
Proof.
  apply (@no_quota_passthrough indel_scorer exact_float (matcher_of 0 ([], []))
           ["a"; "b" +:+ NUL; "c"]).
  vm_compute. discriminate.
Defined.

Lemma length_and_order_witness :
  let self := matcher_of 1 hello_tm in
  let batch := ["hello world" +:+ NUL; "foo"] in
  ∃ out, @_get_batch_matches_of_list indel_scorer exact_float self batch = Ok out
    ∧ length out = length batch
    ∧ ∀ idx s, batch !! idx = Some s →
        ∃ o, out !! idx = Some o
          ∧ (o = np_str s
             ∨ ∃ target, target ∈ (internal_tm self).2
                         ∧ o = np_str s +:+ fuzzy_token self +:+ target).
Proof.
  apply (@length_and_order indel_scorer exact_float (matcher_of 1 hello_tm)
           ["hello world" +:+ NUL; "foo"]).
  - discriminate.
  - reflexivity.
Defined.

Lemma loaded_matcher_runs_witness :
  let self := matcher_of (1 # 10) (["hello worlX"; "ab"], ["bonjour mondeX"; "cd"]) in
  length (internal_tm self).1 = length (internal_tm self).2
  ∧ match @_get_batch_matches indel_scorer exact_float self ["hello world"] with
    | Ok out => length out = length ["hello world"]
    | Raise e =>
        e = ValueError ∧ (internal_tm self).1 = []
        ∧ (0 < @quota exact_float self string ["hello world"])%Q
    end.
Proof.
  apply (@loaded_matcher_runs indel_scorer exact_float (Some tm_lines) (1 # 10) 70
           TAB "[F]" 4 70).
  vm_compute. reflexivity.
Defined.


Lemma batch_apply_missing_src_witness :
  @FuzzyMatchTransform.batch_apply indel_scorer exact_float unit unit
    demo_transform demo_batch no_src_store
  = (Raise KeyError, no_src_store).
Proof.
  apply (@batch_apply_missing_src indel_scorer exact_float unit unit
           demo_transform demo_batch no_src_store 0%nat 0%nat () ()).
  - reflexivity.
  - vm_compute. reflexivity.
Defined.

Lemma batch_apply_returns_batch_witness :
  (@FuzzyMatchTransform.batch_apply indel_scorer exact_float unit unit
     demo_transform demo_batch demo_store).1 = Ok demo_batch.
Proof.
  apply (@batch_apply_returns_batch indel_scorer exact_float unit unit
           demo_transform demo_batch demo_store).
  - intros [|[|idx]] ex x y Hidx; simpl in Hidx; [| | done];
      injection Hidx as <- _ _; vm_compute; eauto.
  - discriminate.
  - reflexivity.
Defined.


